(** * Registered-domain lookup (dkim-regdom.c): a shallow embedding

    The development follows [src/C/dkim-regdom.c].  It has three parts:
    the C-string helpers the file relies on, the suffix tree with the lookup
    functions ([findTldNode], [findRegisteredDomain],
    [getRegisteredDomainDropI]) and the table parser ([readTldString]).

    Conventions.  A C string is represented by the characters that precede
    its terminating NUL.  A pointer that the code never lets be null is
    represented by the value it points to; a pointer that may be null is an
    [option]. *)

From Stdlib Require Import String Ascii List ZArith Lia Bool Arith.
From Stdlib Require Import DecimalString DecimalNat.
Import ListNotations.

Open Scope string_scope.

(** ** C-string helpers *)

Module CString.

(** [strcmp]: only the sign of the result is specified by the C standard. *)
Definition strcmp (a b : string) : Z :=
  match String.compare a b with
  | Eq => 0%Z
  | Lt => (-1)%Z
  | Gt => 1%Z
  end.

Definition strlen (s : string) : nat := String.length s.

(** [strchr s c]: offset of the first [c] in [s], or null. *)
Fixpoint strchr (s : string) (c : ascii) : option nat :=
  match s with
  | EmptyString => None
  | String a rest =>
      if Ascii.eqb a c then Some 0
      else option_map S (strchr rest c)
  end.

(** Membership of a character in a delimiter set given as a string. *)
Fixpoint is_delim (delim : string) (c : ascii) : bool :=
  match delim with
  | EmptyString => false
  | String d rest => Ascii.eqb c d || is_delim rest c
  end.

(** [s + strspn(s, delim)]: [s] without its leading delimiters. *)
Fixpoint skip_delims (delim : string) (s : string) : string :=
  match s with
  | EmptyString => EmptyString
  | String c rest =>
      if is_delim delim c then skip_delims delim rest else s
  end.

(** Splits [s] at [strcspn(s, delim)]: the characters before the first
    delimiter, and what follows from that delimiter on. *)
Fixpoint span_token (delim : string) (s : string) : string * string :=
  match s with
  | EmptyString => (EmptyString, EmptyString)
  | String c rest =>
      if is_delim delim c then (EmptyString, s)
      else let (tok, after) := span_token delim rest in
           (String c tok, after)
  end.

(** [strtok_r(str, delim, &saveptr)].  The buffer is threaded explicitly:
    [saveptr] is the text the saved pointer points to, and the result pairs
    the returned token (null when no token is left) with the new saved
    text.  A null [str] continues from [saveptr]. *)
Definition strtok_r (str : option string) (delim : string) (saveptr : string)
  : option string * string :=
  let s := match str with Some s0 => s0 | None => saveptr end in
  let s1 := skip_delims delim s in
  match s1 with
  | EmptyString => (None, EmptyString)
  | String _ _ =>
      let (tok, after) := span_token delim s1 in
      match after with
      | EmptyString => (Some tok, EmptyString)
      | String _ after' => (Some tok, after')
      end
  end.

End CString.

Import CString.

(** ** Data types *)

(** [node->attr] is either null or the address of the static [THIS]. *)
Inductive attr_ptr : Type :=
| NoAttr
| THIS.

Definition attr_eqb (a b : attr_ptr) : bool :=
  match a, b with
  | NoAttr, NoAttr | THIS, THIS => true
  | _, _ => false
  end.

(** [struct tldnode].  [subnodes] holds the [num_children] children. *)
#[local] Unset Elimination Schemes.
Inductive tldnode : Type :=
| TldNode (dom : string) (attr : attr_ptr) (subnodes : list tldnode).

#[local] Set Elimination Schemes.

Definition dom (n : tldnode) : string :=
  match n with TldNode d _ _ => d end.

Definition attr (n : tldnode) : attr_ptr :=
  match n with TldNode _ a _ => a end.

Definition subnodes (n : tldnode) : list tldnode :=
  match n with TldNode _ _ l => l end.

Definition num_children (n : tldnode) : nat := List.length (subnodes n).

(** [struct dlist]: the list of labels; the null pointer is [nil]. *)
Definition dlist : Type := list string.

Definition ALL : string := "*".

(** ** Lookup *)

(** The [for] loop of [findTldNode], [allNode] being the loop's state. *)
Fixpoint findTldNode_loop (subdom : string) (nodes : list tldnode)
  (allNode : option tldnode) : option tldnode :=
  match nodes with
  | [] => allNode
  | n :: rest =>
      if Z.eqb (strcmp subdom (dom n)) 0 then Some n
      else
        let allNode' :=
          match allNode with
          | None => if Z.eqb (strcmp ALL (dom n)) 0 then Some n else None
          | Some _ => allNode
          end in
        findTldNode_loop subdom rest allNode'
  end.

Definition findTldNode (parent : tldnode) (subdom : string) : option tldnode :=
  findTldNode_loop subdom (subnodes parent) None.

(** [concatDomLabel dl du]: [du] alone when [dl] is null, else [dl.du]. *)
Definition concatDomLabel (dl : option string) (du : string) : string :=
  match dl with
  | None => du
  | Some l => l ++ "." ++ du
  end.

(** [subNode->num_children == 1 && subNode->subnodes[0]->attr == THIS] *)
Definition only_child_is_exception (subNode : tldnode) : bool :=
  match subnodes subNode with
  | [c] => attr_eqb (attr c) THIS
  | _ => false
  end.

(** [findRegisteredDomain subtree dom]: the (non-null) list node [dom] is
    given by its two fields, [val] and [next]. *)
Fixpoint findRegisteredDomain (subtree : tldnode) (val : string) (next : dlist)
  {struct next} : option string :=
  match findTldNode subtree val with
  | None => Some val
  | Some subNode =>
      if only_child_is_exception subNode then Some val
      else
        match next with
        | [] => None
        | val' :: next' =>
            match findRegisteredDomain subNode val' next' with
            | None => None
            | Some fRegDom => Some (concatDomLabel (Some fRegDom) val)
            end
        end
  end.

(** The tokenising loop of [getRegisteredDomainDropI]: every token is pushed
    in front of [head].  [fuel] bounds the number of iterations; see
    [split_loop_fuel] for why [S (strlen hostname)] is always enough. *)
Fixpoint split_loop (fuel : nat) (token : option string) (saveptr : string)
  (head : dlist) : dlist :=
  match fuel, token with
  | _, None => head
  | O, Some _ => head
  | S fuel', Some tok =>
      let (token', saveptr') := strtok_r None "." saveptr in
      split_loop fuel' token' saveptr' (tok :: head)
  end.

Definition split_hostname (hostname : string) : dlist :=
  let (token, saveptr) := strtok_r (Some hostname) "." EmptyString in
  split_loop (S (strlen hostname)) token saveptr [].

Definition getRegisteredDomainDropI (hostname : string) (tree : tldnode)
  (drop_unknown : Z) : option string :=
  let head := split_hostname hostname in
  let result :=
    match head with
    | [] => None
    | val :: next => findRegisteredDomain tree val next
    end in
  match result with
  | None => None
  | Some r =>
      match strchr r "." with
      | None =>
          match head with
          | [] => None
          | _ :: [] => None
          | val :: val' :: _ =>
              if Z.eqb drop_unknown 0
              then Some (concatDomLabel (Some val') val)
              else None
          end
      | Some _ => Some r
      end
  end.

Definition getRegisteredDomainDrop (hostname : string) (tree : tldnode)
  (drop_unknown : Z) : option string :=
  getRegisteredDomainDropI hostname tree drop_unknown.

Definition getRegisteredDomain (hostname : string) (tree : tldnode)
  : option string :=
  getRegisteredDomainDropI hostname tree 0.

(** ** The table parser *)

(** What a run of the parser can come to.  [Fault] covers the runs that are
    undefined in C: a read outside the array, and a count that [atoi] cannot
    represent.

    A run that returns gives the cursor and the tree it has built.  The tree
    is [None] when a node in it is returned with its [dom] never assigned
    (null since the [memset]): [tldnode], whose [dom] is a string, does not
    express such a tree. *)
Inductive fault : Type :=
| OutOfBounds
| AtoiOverflow.

Inductive outcome (A : Type) : Type :=
| Parsed (a : A)
| Fault (f : fault)
| NoFuel.

Arguments Parsed {A} a.
Arguments Fault {A} f.
Arguments NoFuel {A}.

Definition NUL : ascii := Ascii.zero.

(** The C string held by a buffer: its bytes up to the first NUL. *)
Fixpoint c_string (bytes : string) : string :=
  match bytes with
  | EmptyString => EmptyString
  | String c rest =>
      if Ascii.eqb c NUL then EmptyString else String c (c_string rest)
  end.

Definition isspace (c : ascii) : bool :=
  let n := nat_of_ascii c in
  Nat.eqb n 32 || (Nat.leb 9 n && Nat.leb n 13).

Definition isdigit (c : ascii) : bool :=
  let n := nat_of_ascii c in
  Nat.leb 48 n && Nat.leb n 57.

Fixpoint skip_spaces (s : string) : string :=
  match s with
  | EmptyString => EmptyString
  | String c rest => if isspace c then skip_spaces rest else s
  end.

Fixpoint atoi_digits (s : string) (acc : Z) : Z :=
  match s with
  | EmptyString => acc
  | String c rest =>
      if isdigit c
      then atoi_digits rest (10 * acc + Z.of_nat (nat_of_ascii c - 48))%Z
      else acc
  end.

Definition INT_MIN : Z := (- 2 ^ 31)%Z.
Definition INT_MAX : Z := (2 ^ 31 - 1)%Z.
Definition UINT_MODULUS : Z := (2 ^ 32)%Z.

(** [atoi]: white space, an optional sign, then decimal digits.  A value that
    [int] cannot hold is undefined in C: [None]. *)
Definition atoi (s : string) : option Z :=
  let s1 := skip_spaces s in
  let v :=
    match s1 with
    | String "-"%char rest => (- atoi_digits rest 0)%Z
    | String "+"%char rest => atoi_digits rest 0
    | _ => atoi_digits s1 0
    end in
  if Z.leb INT_MIN v && Z.leb v INT_MAX then Some v else None.

(** The [switch]'s two states. *)
Inductive read_state : Type :=
| GeneralRead   (* case 0 *)
| ReadCount.    (* case 1 *)

Definition is_structural (c : ascii) : bool :=
  Ascii.eqb c ","%char || Ascii.eqb c ")"%char || Ascii.eqb c "("%char.

(** The [for] loop that reads the children: [rd p] is the recursive call
    [readTldString(node->subnodes[i], s, len, p)]. *)
Definition cons_child (child : option tldnode)
  (children : option (list tldnode)) : option (list tldnode) :=
  match child, children with
  | Some c, Some cs => Some (c :: cs)
  | _, _ => None
  end.

Fixpoint read_children (rd : nat -> outcome (option tldnode * nat))
  (fuel : nat) (i num_children : Z) (pos : nat)
  : outcome (option (list tldnode) * nat) :=
  if Z.ltb i num_children then
    match rd (pos + 1) with
    | Parsed (child, pos') =>
        match fuel with
        | O => NoFuel
        | S fuel' =>
            match read_children rd fuel' (i + 1)%Z num_children pos' with
            | Parsed (children, pos'') =>
                Parsed (cons_child child children, pos'')
            | Fault f => Fault f
            | NoFuel => NoFuel
            end
        end
    | Fault f => Fault f
    | NoFuel => NoFuel
    end
  else Parsed (Some [], pos).

(** What [return pos] hands back: the node as it stands and the cursor. *)
Definition return_node (node_dom : option string) (node_attr : attr_ptr)
  (children : option (list tldnode)) (pos : nat)
  : outcome (option tldnode * nat) :=
  Parsed (match node_dom, children with
          | Some d, Some cs => Some (TldNode d node_attr cs)
          | _, _ => None
          end, pos).

(** The [do ... while (pos < len)] loop of [readTldString].  [s] is the whole
    array (for the table, the literal and its terminator), [start], [state]
    and [pos] are the function's locals, [node_dom] and [node_attr] the fields
    of [*node] written so far.  A cursor is inside the array when it is read
    and grows by one for each enclosing block on the way back, so the [int]
    arithmetic of the source does not wrap and [nat] stands for it; where the
    source computes [pos - start - 1], a ['!'] or a ['('] has been read at or
    after [start] and before [pos], so the difference is not negative. *)
Fixpoint readTldString_loop (fuel : nat) (s : string) (len : nat)
  (start : nat) (state : read_state)
  (node_dom : option string) (node_attr : attr_ptr) (pos : nat)
  {struct fuel} : outcome (option tldnode * nat) :=
  match fuel with
  | O => NoFuel
  | S fuel' =>
      match String.get pos s with
      | None => Fault OutOfBounds
      | Some c =>
          let next_iteration start' state' dom' attr' :=
            if Nat.ltb (S pos) len
            then readTldString_loop fuel' s len start' state' dom' attr' (S pos)
            else return_node dom' attr' (Some []) (S pos) in
          match state with
          | GeneralRead =>
              if is_structural c then
                let lenc :=
                  match node_attr with
                  | THIS => pos - start - 1
                  | NoAttr => pos - start
                  end in
                let d := c_string (substring start lenc s) in
                if Ascii.eqb c "("%char
                then next_iteration pos ReadCount (Some d) node_attr
                else return_node (Some d) node_attr (Some []) pos
              else if Ascii.eqb c "!"%char
              then next_iteration start state node_dom THIS
              else next_iteration start state node_dom node_attr
          | ReadCount =>
              if Ascii.eqb c ":"%char then
                let buf := c_string (substring (start + 1) (pos - start - 1) s) in
                match atoi buf with
                | None => Fault AtoiOverflow
                | Some v =>
                    let num_children := (v mod UINT_MODULUS)%Z in
                    let rd p :=
                      readTldString_loop fuel' s len p GeneralRead None NoAttr p in
                    match read_children rd fuel' 0 num_children pos with
                    | Parsed (children, pos') =>
                        return_node node_dom node_attr children (pos' + 1)
                    | Fault f => Fault f
                    | NoFuel => NoFuel
                    end
                end
              else next_iteration start state node_dom node_attr
          end
      end
  end.

(** [readTldString(node, s, len, pos)]: the node read and the cursor
    returned. *)
Definition readTldString (fuel : nat) (s : string) (len : nat) (pos : nat)
  : outcome (option tldnode * nat) :=
  readTldString_loop fuel s len pos GeneralRead None NoAttr pos.

(** [loadTldTree], with the table of [tld-canon.h] as a parameter:
    [tldString] is the text of the string literal, the array adds its
    terminator and [sizeof tldString - 1] is the text's length. *)
Definition loadTldTree (tldString : string) : outcome (option tldnode) :=
  let array := tldString ++ String NUL EmptyString in
  match readTldString (S (String.length array)) array
          (String.length array - 1) 0 with
  | Parsed (root, _) => Parsed root
  | Fault f => Fault f
  | NoFuel => NoFuel
  end.

(** ** Printing the tree *)

(** What [printTldTreeI] writes to the standard output, or the overflow of
    its local buffer [char dest[100]].  [null_text] is what the C library's
    [printf] writes for a null argument of [%s] (the attribute of a node that
    is not an exception); the standard leaves it open. *)
Inductive print_outcome : Type :=
| Printed (out : string)
| DestOverflow.

Definition newline : string := String (ascii_of_nat 10) EmptyString.

Definition DEST_SIZE : nat := 100.

Definition attr_text (null_text : string) (a : attr_ptr) : string :=
  match a with
  | THIS => "!"
  | NoAttr => null_text
  end.

(** The [for] loop of [printTldTreeI]: each iteration fills [dest] with
    [sprintf(dest, "  %s", spacer)], two blanks, the spacer and the
    terminator, and prints the child with [dest] as its spacer. *)
Fixpoint print_children (pr : tldnode -> string -> print_outcome)
  (spacer : string) (kids : list tldnode) : print_outcome :=
  match kids with
  | [] => Printed EmptyString
  | k :: rest =>
      if Nat.ltb DEST_SIZE (2 + strlen spacer + 1) then DestOverflow
      else
        match pr k ("  " ++ spacer) with
        | DestOverflow => DestOverflow
        | Printed out =>
            match print_children pr spacer rest with
            | DestOverflow => DestOverflow
            | Printed out' => Printed (out ++ out')
            end
        end
  end.

Fixpoint printTldTreeI (null_text : string) (node : tldnode) (spacer : string)
  : print_outcome :=
  match node with
  | TldNode d a kids =>
      match kids with
      | [] =>
          Printed (spacer ++ d ++ ": " ++ attr_text null_text a ++ newline)
      | _ :: _ =>
          match print_children (printTldTreeI null_text) spacer kids with
          | DestOverflow => DestOverflow
          | Printed out => Printed (spacer ++ d ++ ":" ++ newline ++ out)
          end
      end
  end.

Definition printTldTree (null_text : string) (node : tldnode)
  (spacer : string) : print_outcome :=
  printTldTreeI null_text node spacer.

(** The number of nested child blocks of a tree. *)
Fixpoint block_depth (t : tldnode) : nat :=
  match t with
  | TldNode _ _ kids =>
      match kids with
      | [] => 0
      | _ :: _ => S (list_max (map block_depth kids))
      end
  end.

(** The indentation of the deepest child block still fits in [dest]. *)
Definition dest_fits (t : tldnode) (spacer_length : nat) : Prop :=
  block_depth t = 0 \/ spacer_length + 2 * block_depth t + 1 <= DEST_SIZE.

(** A tree of [n] nested child blocks, one child each. *)
Fixpoint chain (n : nat) : tldnode :=
  match n with
  | O => TldNode "x" NoAttr []
  | S m => TldNode "x" NoAttr [chain m]
  end.

(** ** Reference definitions for the statements *)

(** Splitting on a separator with every empty piece kept: the split the
    specification's matcher describes in its first step. *)
Fixpoint split_keep_empty (sep : ascii) (s : string) : list string :=
  match s with
  | EmptyString => [EmptyString]
  | String c rest =>
      if Ascii.eqb c sep then EmptyString :: split_keep_empty sep rest
      else
        match split_keep_empty sep rest with
        | [] => [String c EmptyString]
        | w :: ws => String c w :: ws
        end
  end.

Definition nonempty (s : string) : bool :=
  match s with
  | EmptyString => false
  | String _ _ => true
  end.

(** The labels of a host name that are not empty, left to right. *)
Definition labels_of (hostname : string) : list string :=
  filter nonempty (split_keep_empty "."%char hostname).

(** The host name with its empty labels removed: leading and trailing dots
    dropped, runs of dots collapsed. *)
Definition collapse_dots (hostname : string) : string :=
  String.concat "." (labels_of hostname).

Fixpoint only_dots (s : string) : bool :=
  match s with
  | EmptyString => true
  | String c rest => Ascii.eqb c "."%char && only_dots rest
  end.

(** Sibling labels are pairwise distinct (the data model's key property). *)
Definition unique_labels (n : tldnode) : Prop :=
  NoDup (map dom (subnodes n)).

Definition dot_free (s : string) : Prop := strchr s "."%char = None.

(** *** The encoding of a tree, after the grammar

    [node := label ['!'] [ '(' count ':' node (',' node)* ')' ]] *)

Definition count_text (n : nat) : string :=
  NilZero.string_of_uint (Nat.to_uint n).

Definition marker (a : attr_ptr) : string :=
  match a with
  | NoAttr => EmptyString
  | THIS => "!"
  end.

(** The children of a block, from one of them on, with the closing
    parenthesis. *)
Definition siblings_text (texts : list string) : string :=
  String.concat "," texts ++ ")".

(** The child block of a node, given the texts of its children; a node
    without children has none. *)
Definition block_text (texts : list string) : string :=
  match texts with
  | [] => EmptyString
  | _ :: _ =>
      "(" ++ count_text (List.length texts) ++ ":" ++ siblings_text texts
  end.

Fixpoint encode (n : tldnode) : string :=
  match n with
  | TldNode d a kids => d ++ marker a ++ block_text (map encode kids)
  end.

Fixpoint all_chars (p : ascii -> bool) (s : string) : bool :=
  match s with
  | EmptyString => true
  | String c rest => p c && all_chars p rest
  end.

(** A label holds no structural character and no NUL, and no ['!'] unless
    the node is an exception (whose marker then ends the label's text). *)
Definition label_char (a : attr_ptr) (c : ascii) : bool :=
  negb (is_structural c) && negb (Ascii.eqb c NUL)
  && match a with
     | NoAttr => negb (Ascii.eqb c "!"%char)
     | THIS => true
     end.

(** Well-formed trees: proper labels, and child counts that [int] holds. *)
Fixpoint wf_node (n : tldnode) : bool :=
  match n with
  | TldNode d a kids =>
      all_chars (label_char a) d
      && Z.leb (Z.of_nat (List.length kids)) INT_MAX
      && forallb wf_node kids
  end.

(** What follows a node in a well-formed text read up to [len]: a node
    without children is ended by [','] or [')'], read before [len]; a block
    ends at or before [len]. *)
Definition terminated (t : tldnode) (tail : string) (len end_pos : nat)
  : Prop :=
  match subnodes t with
  | [] =>
      (exists c tail', tail = String c tail'
                       /\ (c = ","%char \/ c = ")"%char))
      /\ end_pos < len
  | _ :: _ => end_pos <= len
  end.

(** [tail] is what [s] holds from offset [pos] on. *)
Definition suffix_at (s : string) (pos : nat) (tail : string) : Prop :=
  exists pre, s = pre ++ tail /\ String.length pre = pos.

(** The attribute after the loop has read [chars] in state 0. *)
Fixpoint mark (chars : string) (a : attr_ptr) : attr_ptr :=
  match chars with
  | EmptyString => a
  | String c rest => mark rest (if Ascii.eqb c "!"%char then THIS else a)
  end.

(** [rd], standing for the recursive call, reads the well-formed node [k]
    wherever its text starts at or after [from]. *)
Definition reads_node (s : string) (len : nat)
  (rd : nat -> outcome (option tldnode * nat)) (from : nat) (k : tldnode)
  : Prop :=
  forall q tail,
    from <= q ->
    suffix_at s q (encode k ++ tail) ->
    terminated k tail len (q + String.length (encode k)) ->
    rd q = Parsed (Some k, q + String.length (encode k)).

(** A run from [pos] does not run out of fuel, and the cursor it returns is
    not before [pos]. *)
Definition proceeds (A : Type) (pos : nat) (r : outcome (A * nat)) : Prop :=
  r <> NoFuel
  /\ forall x p', r = Parsed (x, p') -> pos <= p'.

(** Induction over trees, with the hypothesis for every child. *)
Section TreeInduction.

Variable P : tldnode -> Prop.
Hypothesis step : forall d a kids, Forall P kids -> P (TldNode d a kids).

Fixpoint tldnode_ind (n : tldnode) : P n :=
  match n with
  | TldNode d a kids =>
      step d a kids
        ((fix all (l : list tldnode) : Forall P l :=
            match l with
            | [] => Forall_nil P
            | k :: l' => Forall_cons k (tldnode_ind k) (all l')
            end) kids)
  end.

End TreeInduction.

(** *** Following rules down the tree

    [descend t labels] follows one rule per label from [t] on, as the walk
    does when it goes deeper: each label must find a child, and that child
    must not be an exception boundary.  It gives the node reached. *)
Fixpoint descend (t : tldnode) (labels : list string) : option tldnode :=
  match labels with
  | [] => Some t
  | l :: ls =>
      match findTldNode t l with
      | None => None
      | Some sub =>
          if only_child_is_exception sub then None else descend sub ls
      end
  end.

(** The walk stops at [label] below [node]: no child is found, or the child
    found is an exception boundary. *)
Definition stops_at (node : tldnode) (label : string) : Prop :=
  findTldNode node label = None
  \/ exists sub, findTldNode node label = Some sub
                 /\ only_child_is_exception sub = true.

(** Labels in the order of the list built by the split (top-level first),
    written back as a name. *)
Definition name_of (labels : dlist) : string :=
  String.concat "." (rev labels).

(** *** Labels of a tree *)

(** A character that a stored label can hold: not structural, not NUL. *)
Definition clean_char (c : ascii) : bool :=
  negb (is_structural c) && negb (Ascii.eqb c NUL).

(** [p] holds of the label of every node of the tree. *)
Fixpoint all_labels (p : string -> bool) (t : tldnode) : bool :=
  match t with
  | TldNode d _ kids => p d && forallb (all_labels p) kids
  end.

(** *** Example trees *)

Definition example_parent : tldnode :=
  TldNode "uk" NoAttr
    [TldNode "*" NoAttr []; TldNode "example" NoAttr [TldNode "x" NoAttr []]].

Definition ck_tree : tldnode :=
  TldNode "root" NoAttr
    [TldNode "ck" NoAttr [TldNode "*" NoAttr [TldNode "www" THIS []]];
     TldNode "com" NoAttr []].

Definition ck_text : string := "root(2:ck(1:*(1:www!)),com)".

Definition uk_tree : tldnode :=
  TldNode "root" NoAttr
    [TldNode "uk" NoAttr [TldNode "co" NoAttr []; TldNode "ac" NoAttr []]].

Definition com_leaf : tldnode := TldNode "com" NoAttr [].

Definition com_root : tldnode := TldNode "root" NoAttr [com_leaf].

(** * Properties *)

(** ** One-level lookup *)

Section OneLevel.

Lemma strcmp_eqb (a b : string) :
  Z.eqb (strcmp a b) 0 = String.eqb a b.
Proof.
  unfold strcmp.
  destruct (String.compare a b) eqn:E.
  - apply String.compare_eq_iff in E. subst. now rewrite String.eqb_refl.
  - destruct (String.eqb_spec a b) as [->|]; [|reflexivity].
    pose proof (String.compare_antisym b b) as H.
    rewrite E in H. discriminate.
  - destruct (String.eqb_spec a b) as [->|]; [|reflexivity].
    pose proof (String.compare_antisym b b) as H.
    rewrite E in H. discriminate.
Qed.

(** The loop, as two searches: first for the label, then for ["*"]. *)
Lemma findTldNode_loop_find (subdom : string) (nodes : list tldnode) :
  forall allNode,
    findTldNode_loop subdom nodes allNode =
    match find (fun n => String.eqb subdom (dom n)) nodes with
    | Some n => Some n
    | None =>
        match allNode with
        | Some a => Some a
        | None => find (fun n => String.eqb ALL (dom n)) nodes
        end
    end.
Proof.
  induction nodes as [|n rest IH]; intros allNode;
    cbn [findTldNode_loop find].
  - now destruct allNode.
  - rewrite !strcmp_eqb.
    destruct (String.eqb subdom (dom n)); [reflexivity|].
    rewrite IH.
    destruct (find _ rest); [reflexivity|].
    destruct allNode; [reflexivity|].
    now destruct (String.eqb ALL (dom n)).
Qed.

Lemma findTldNode_find (parent : tldnode) (subdom : string) :
  findTldNode parent subdom =
  match find (fun n => String.eqb subdom (dom n)) (subnodes parent) with
  | Some n => Some n
  | None => find (fun n => String.eqb ALL (dom n)) (subnodes parent)
  end.
Proof. unfold findTldNode. now rewrite findTldNode_loop_find. Qed.

Lemma find_label_some (l : string) (nodes : list tldnode) (c : tldnode) :
  In c nodes -> dom c = l ->
  exists c', find (fun n => String.eqb l (dom n)) nodes = Some c'
             /\ In c' nodes /\ dom c' = l.
Proof.
  intros Hin Hd.
  destruct (find (fun n => String.eqb l (dom n)) nodes) as [c'|] eqn:F.
  - apply find_some in F as [Hin' He].
    apply String.eqb_eq in He. now exists c'.
  - apply (find_none _ _ F) in Hin. simpl in Hin.
    rewrite Hd, String.eqb_refl in Hin. discriminate.
Qed.

Lemma find_label_none (l : string) (nodes : list tldnode) :
  (forall c, In c nodes -> dom c <> l) ->
  find (fun n => String.eqb l (dom n)) nodes = None.
Proof.
  intros H.
  destruct (find (fun n => String.eqb l (dom n)) nodes) as [c'|] eqn:F;
    [|reflexivity].
  apply find_some in F as [Hin He].
  apply String.eqb_eq in He. symmetry in He. now apply H in Hin.
Qed.

(** With distinct sibling labels, the child carrying a label is the one the
    lookup returns. *)
Lemma find_label_unique (l : string) (nodes : list tldnode) (c : tldnode) :
  NoDup (map dom nodes) -> In c nodes -> dom c = l ->
  find (fun n => String.eqb l (dom n)) nodes = Some c.
Proof.
  induction nodes as [|n rest IH]; intros Hnd Hin Hd; [easy|].
  simpl in *. inversion Hnd as [|? ? Hnotin Hnd']; subst.
  destruct Hin as [->|Hin].
  - now rewrite String.eqb_refl.
  - destruct (String.eqb_spec (dom c) (dom n)) as [E|_].
    + exfalso. apply Hnotin. rewrite <- E. now apply in_map.
    + now apply IH.
Qed.

Lemma findTldNode_unique (parent c : tldnode) (l : string) :
  unique_labels parent -> In c (subnodes parent) -> dom c = l ->
  findTldNode parent l = Some c.
Proof.
  intros U Hin Hd. rewrite findTldNode_find.
  now rewrite (find_label_unique l _ c U Hin Hd).
Qed.

Lemma findTldNode_absent (parent : tldnode) (l : string) :
  (forall c, In c (subnodes parent) -> dom c <> l /\ dom c <> ALL) ->
  findTldNode parent l = None.
Proof.
  intros H. rewrite findTldNode_find.
  rewrite find_label_none by (intros c Hc; now apply H).
  apply find_label_none. intros c Hc. now apply H.
Qed.

End OneLevel.

(** C6.  The one-level lookup returns a child whose label is the queried one
    whenever there is such a child, also when a sibling is labelled ["*"];
    failing that it returns a child labelled ["*"] when there is one; failing
    both it returns null. *)
Theorem findTldNode_exact_then_wildcard (parent : tldnode) (label : string) :
  (forall c, In c (subnodes parent) -> dom c = label ->
     exists c', findTldNode parent label = Some c'
                /\ In c' (subnodes parent) /\ dom c' = label)
  /\ ((forall c, In c (subnodes parent) -> dom c <> label) ->
      forall w, In w (subnodes parent) -> dom w = "*" ->
        exists w', findTldNode parent label = Some w'
                   /\ In w' (subnodes parent) /\ dom w' = "*")
  /\ ((forall c, In c (subnodes parent) -> dom c <> label /\ dom c <> "*") ->
      findTldNode parent label = None).
Proof.
  repeat split.
  - intros c Hin Hd. rewrite findTldNode_find.
    destruct (find_label_some label _ c Hin Hd) as (c' & -> & H1 & H2).
    now exists c'.
  - intros Hno w Hin Hd. rewrite findTldNode_find.
    rewrite (find_label_none label _ Hno).
    destruct (find_label_some ALL _ w Hin Hd) as (w' & -> & H1 & H2).
    now exists w'.
  - apply findTldNode_absent.
Qed.

Lemma findTldNode_exact_then_wildcard_witness :
  findTldNode example_parent "example"
    = Some (TldNode "example" NoAttr [TldNode "x" NoAttr []])
  /\ findTldNode example_parent "other" = Some (TldNode "*" NoAttr [])
  /\ findTldNode (TldNode "com" NoAttr []) "other" = None.
Proof.
  split; [|split].
  - destruct (proj1 (findTldNode_exact_then_wildcard example_parent "example")
                (TldNode "example" NoAttr [TldNode "x" NoAttr []]))
      as (c' & E & _ & _).
    + simpl. right. left. reflexivity.
    + reflexivity.
    + rewrite E. vm_compute in E. symmetry. exact E.
  - destruct (proj1 (proj2 (findTldNode_exact_then_wildcard example_parent "other")))
      with (w := TldNode "*" NoAttr []) as (w' & E & _ & _).
    + intros c [<-|[<-|[]]]; discriminate.
    + simpl. left. reflexivity.
    + reflexivity.
    + rewrite E. vm_compute in E. symmetry. exact E.
  - apply (proj2 (proj2 (findTldNode_exact_then_wildcard
                           (TldNode "com" NoAttr []) "other"))).
    intros c [].
Defined.

(** ** The recursive walk *)

Section Walk.

Lemma findRegisteredDomain_unmatched (subtree : tldnode) (val : string)
  (next : dlist) :
  findTldNode subtree val = None ->
  findRegisteredDomain subtree val next = Some val.
Proof. intros H. destruct next; cbn [findRegisteredDomain]; now rewrite H. Qed.

Lemma findRegisteredDomain_boundary (subtree subNode : tldnode)
  (val : string) (next : dlist) :
  findTldNode subtree val = Some subNode ->
  only_child_is_exception subNode = true ->
  findRegisteredDomain subtree val next = Some val.
Proof.
  intros H E. destruct next; cbn [findRegisteredDomain]; now rewrite H, E.
Qed.

Lemma findRegisteredDomain_consumed (subtree subNode : tldnode)
  (val : string) :
  findTldNode subtree val = Some subNode ->
  only_child_is_exception subNode = false ->
  findRegisteredDomain subtree val [] = None.
Proof. intros H E. cbn [findRegisteredDomain]. now rewrite H, E. Qed.

Lemma findRegisteredDomain_descend (subtree subNode : tldnode)
  (val val' : string) (next' : dlist) :
  findTldNode subtree val = Some subNode ->
  only_child_is_exception subNode = false ->
  findRegisteredDomain subtree val (val' :: next') =
  match findRegisteredDomain subNode val' next' with
  | None => None
  | Some fRegDom => Some (concatDomLabel (Some fRegDom) val)
  end.
Proof. intros H E. cbn [findRegisteredDomain]. now rewrite H, E. Qed.

Lemma strchr_append (a b : string) (c : ascii) :
  strchr (a ++ String c b) c <> None.
Proof.
  induction a as [|x a IH]; simpl.
  - now rewrite Ascii.eqb_refl.
  - destruct (Ascii.eqb x c); [discriminate|].
    destruct (strchr (a ++ String c b) c); [discriminate|contradiction].
Qed.

Lemma concatDomLabel_has_dot (l du : string) :
  strchr (concatDomLabel (Some l) du) "." <> None.
Proof. apply strchr_append. Qed.

End Walk.

(** C5 as written fails: with a leaf [com] below the root, the walk for the
    labels [com], [example] gets [example] from the deeper call and returns
    [example.com], not [com.example]. *)
Lemma walk_head_first_counterexample :
  findTldNode com_root "com" = Some com_leaf
  /\ only_child_is_exception com_leaf = false
  /\ findRegisteredDomain com_leaf "example" [] = Some "example"
  /\ findRegisteredDomain com_root "com" ["example"]
     <> Some ("com" ++ "." ++ "example")
  /\ findRegisteredDomain com_root "com" ["example"] = Some "example.com".
Proof. repeat split; vm_compute; discriminate. Qed.

(** C5, amended.  When the lookup of the current label gives a child that is
    not an exception boundary and labels remain, the walk returns the deeper
    result followed by a dot and the current label, [deeper.head]; when the
    deeper call returns null, so does the walk. *)
Theorem findRegisteredDomain_appends_head (subtree subNode : tldnode)
  (val val' : string) (next' : dlist) :
  findTldNode subtree val = Some subNode ->
  only_child_is_exception subNode = false ->
  (forall deeper,
     findRegisteredDomain subNode val' next' = Some deeper ->
     findRegisteredDomain subtree val (val' :: next')
       = Some (deeper ++ "." ++ val))
  /\ (findRegisteredDomain subNode val' next' = None ->
      findRegisteredDomain subtree val (val' :: next') = None).
Proof.
  intros H E.
  rewrite (findRegisteredDomain_descend _ _ _ _ _ H E).
  split.
  - now intros deeper ->.
  - now intros ->.
Qed.

Lemma findRegisteredDomain_appends_head_witness :
  findRegisteredDomain
    (TldNode "root" NoAttr [TldNode "com" NoAttr []]) "com" ["example"; "www"]
  = Some ("example" ++ "." ++ "com").
Proof.
  apply (proj1 (findRegisteredDomain_appends_head
                  (TldNode "root" NoAttr [TldNode "com" NoAttr []])
                  (TldNode "com" NoAttr []) "com" "example" ["www"]
                  eq_refl eq_refl)).
  reflexivity.
Defined.

(** ** The matcher *)

Section Matcher.

Lemma split_www_ck : split_hostname "www.ck" = ["ck"; "www"].
Proof. reflexivity. Qed.

Lemma split_foo_ck : split_hostname "foo.ck" = ["ck"; "foo"].
Proof. reflexivity. Qed.

Lemma split_a_foo_ck : split_hostname "a.foo.ck" = ["ck"; "foo"; "a"].
Proof. reflexivity. Qed.

Lemma split_a_zzz : split_hostname "a.zzz" = ["zzz"; "a"].
Proof. reflexivity. Qed.

Lemma split_zzz : split_hostname "zzz" = ["zzz"].
Proof. reflexivity. Qed.

Lemma split_www_example_com :
  split_hostname "www.example.com" = ["com"; "example"; "www"].
Proof. reflexivity. Qed.

Lemma split_example_com : split_hostname "example.com" = ["com"; "example"].
Proof. reflexivity. Qed.

Lemma split_com : split_hostname "com" = ["com"].
Proof. reflexivity. Qed.

(** Below a node whose only child is the wildcard, every label finds it. *)
Lemma findTldNode_sole_wildcard (d : string) (a : attr_ptr)
  (star : tldnode) (label : string) :
  dom star = "*" ->
  findTldNode (TldNode d a [star]) label = Some star.
Proof.
  intros Hs. unfold findTldNode. cbn [subnodes findTldNode_loop].
  rewrite !strcmp_eqb, Hs.
  now destruct (String.eqb label "*").
Qed.

End Matcher.

(** C1.  In a tree whose top-level rule [ck] has the wildcard [*] as its only
    child, itself with the exception [www] as its only child, the registered
    domain of [www.ck] is [www.ck], that of [foo.ck] is [foo.ck] and that of
    [a.foo.ck] is [foo.ck].  These are the walk's own results, not the
    two-label fallback: the answers are the same with [drop_unknown] set; the
    walk from the root goes below [ck], where every label finds the wildcard,
    whose only child is an exception, so the walk stops there and returns the
    current label alone, which the level above completes to [label.ck]. *)
Theorem exception_short_circuit (tree ck star exc : tldnode) :
  unique_labels tree ->
  In ck (subnodes tree) -> dom ck = "ck" ->
  subnodes ck = [star] -> dom star = "*" -> attr star = NoAttr ->
  subnodes star = [exc] -> dom exc = "www" -> attr exc = THIS ->
  getRegisteredDomain "www.ck" tree = Some "www.ck"
  /\ getRegisteredDomain "foo.ck" tree = Some "foo.ck"
  /\ getRegisteredDomain "a.foo.ck" tree = Some "foo.ck"
  /\ (forall label next,
        findRegisteredDomain ck label next = Some label)
  /\ (forall drop_unknown,
        getRegisteredDomainDrop "www.ck" tree drop_unknown = Some "www.ck"
        /\ getRegisteredDomainDrop "foo.ck" tree drop_unknown = Some "foo.ck"
        /\ getRegisteredDomainDrop "a.foo.ck" tree drop_unknown
           = Some "foo.ck")
  /\ (forall label next,
        findRegisteredDomain tree "ck" (label :: next)
        = Some (label ++ "." ++ "ck"))
  /\ findTldNode tree "ck" = Some ck
  /\ only_child_is_exception ck = false
  /\ (forall label, findTldNode ck label = Some star)
  /\ only_child_is_exception star = true.
Proof.
  intros U Hin Hck Hsub Hstar Hattr Hsub' Hexc Hthis.
  pose proof (findTldNode_unique tree ck "ck" U Hin Hck) as Hfind.
  assert (Hnb : only_child_is_exception ck = false).
  { unfold only_child_is_exception. now rewrite Hsub, Hattr. }
  assert (Hb : only_child_is_exception star = true).
  { unfold only_child_is_exception. now rewrite Hsub', Hthis. }
  assert (Hwild : forall label, findTldNode ck label = Some star).
  { intros label. destruct ck as [d a l]. simpl in Hsub. subst l.
    now apply findTldNode_sole_wildcard. }
  assert (Hbase : forall label next,
             findRegisteredDomain ck label next = Some label).
  { intros label next.
    apply findRegisteredDomain_boundary with (subNode := star);
      [apply Hwild|exact Hb]. }
  assert (Hwalk : forall label next,
             findRegisteredDomain tree "ck" (label :: next)
             = Some (label ++ "." ++ "ck")).
  { intros label next.
    rewrite (findRegisteredDomain_descend _ _ _ _ _ Hfind Hnb), Hbase.
    reflexivity. }
  assert (Hdrop : forall drop_unknown,
             getRegisteredDomainDrop "www.ck" tree drop_unknown
             = Some "www.ck"
             /\ getRegisteredDomainDrop "foo.ck" tree drop_unknown
                = Some "foo.ck"
             /\ getRegisteredDomainDrop "a.foo.ck" tree drop_unknown
                = Some "foo.ck").
  { intros d.
    unfold getRegisteredDomainDrop, getRegisteredDomainDropI.
    rewrite split_www_ck, split_foo_ck, split_a_foo_ck, !Hwalk.
    split; [|split]; reflexivity. }
  destruct (Hdrop 0%Z) as (H1 & H2 & H3).
  split; [exact H1|]. split; [exact H2|]. split; [exact H3|].
  split; [exact Hbase|]. split; [exact Hdrop|]. split; [exact Hwalk|].
  split; [exact Hfind|]. split; [exact Hnb|]. split; [exact Hwild|exact Hb].
Qed.

Lemma exception_short_circuit_witness :
  getRegisteredDomain "www.ck" ck_tree = Some "www.ck"
  /\ getRegisteredDomain "foo.ck" ck_tree = Some "foo.ck"
  /\ getRegisteredDomain "a.foo.ck" ck_tree = Some "foo.ck"
  /\ getRegisteredDomainDrop "www.ck" ck_tree 1 = Some "www.ck"
  /\ getRegisteredDomainDrop "a.foo.ck" ck_tree 1 = Some "foo.ck"
  /\ findRegisteredDomain ck_tree "ck" ["www"] = Some "www.ck".
Proof.
  destruct (exception_short_circuit ck_tree
              (TldNode "ck" NoAttr [TldNode "*" NoAttr [TldNode "www" THIS []]])
              (TldNode "*" NoAttr [TldNode "www" THIS []])
              (TldNode "www" THIS []))
    as (H1 & H2 & H3 & _ & Hd & Hw & _); try reflexivity.
  - unfold unique_labels. simpl.
    constructor.
    + intros [H|[]]. discriminate.
    + constructor; [intros []|constructor].
  - simpl. left. reflexivity.
  - destruct (Hd 1%Z) as (D1 & _ & D3).
    exact (conj H1 (conj H2 (conj H3 (conj D1 (conj D3 (Hw "www" [])))))).
Defined.

(** C2.  When the top level has no rule for [zzz] (no child labelled [zzz]
    and no wildcard), the registered domain of [a.zzz] is the two-label
    fallback [a.zzz], with [drop_unknown] set it is null, and the single label
    [zzz] gives null in both modes. *)
Theorem unknown_tld_fallback (tree : tldnode) :
  (forall c, In c (subnodes tree) -> dom c <> "zzz" /\ dom c <> "*") ->
  getRegisteredDomain "a.zzz" tree = Some "a.zzz"
  /\ (forall drop_unknown, drop_unknown <> 0%Z ->
        getRegisteredDomainDrop "a.zzz" tree drop_unknown = None)
  /\ getRegisteredDomain "zzz" tree = None
  /\ (forall drop_unknown,
        getRegisteredDomainDrop "zzz" tree drop_unknown = None).
Proof.
  intros Hno.
  pose proof (findTldNode_absent tree "zzz" Hno) as Habs.
  unfold getRegisteredDomain, getRegisteredDomainDrop, getRegisteredDomainDropI.
  rewrite split_a_zzz, split_zzz.
  rewrite !(findRegisteredDomain_unmatched _ _ _ Habs).
  repeat split; try reflexivity.
  intros d Hd. cbn.
  destruct (Z.eqb_spec d 0); [contradiction|reflexivity].
Qed.

Lemma unknown_tld_fallback_witness :
  getRegisteredDomain "a.zzz" ck_tree = Some "a.zzz"
  /\ getRegisteredDomainDrop "a.zzz" ck_tree 1 = None
  /\ getRegisteredDomain "zzz" ck_tree = None
  /\ getRegisteredDomainDrop "zzz" ck_tree 1 = None.
Proof.
  assert (Hno : forall c, In c (subnodes ck_tree) ->
                          dom c <> "zzz" /\ dom c <> "*").
  { intros c [<-|[<-|[]]]; split; discriminate. }
  destruct (unknown_tld_fallback ck_tree Hno) as (H1 & H2 & H3 & H4).
  split; [|split; [|split]].
  - exact H1.
  - apply H2. discriminate.
  - exact H3.
  - apply H4.
Defined.

(** C3.  When the root has a childless child labelled [com] (sibling labels
    being distinct), the registered domain of [www.example.com] and of
    [example.com] is [example.com], and that of [com] is null.  These are the
    walk's own results, not the fallback: they are the same with
    [drop_unknown] set; the root lookup finds the rule [com], below it no
    label finds a rule, so the walk returns [label.com] for the label that
    follows, and for [com] alone, which the rule consumes whole with no label
    beneath, the walk itself returns null. *)
Theorem ordinary_two_level_suffix (tree com : tldnode) :
  unique_labels tree ->
  In com (subnodes tree) -> dom com = "com" -> subnodes com = [] ->
  getRegisteredDomain "www.example.com" tree = Some "example.com"
  /\ getRegisteredDomain "example.com" tree = Some "example.com"
  /\ getRegisteredDomain "com" tree = None
  /\ (forall drop_unknown,
        getRegisteredDomainDrop "www.example.com" tree drop_unknown
        = Some "example.com"
        /\ getRegisteredDomainDrop "example.com" tree drop_unknown
           = Some "example.com"
        /\ getRegisteredDomainDrop "com" tree drop_unknown = None)
  /\ (forall label next,
        findRegisteredDomain tree "com" (label :: next)
        = Some (label ++ "." ++ "com"))
  /\ findRegisteredDomain tree "com" [] = None
  /\ findTldNode tree "com" = Some com
  /\ (forall label, findTldNode com label = None).
Proof.
  intros U Hin Hd Hsub.
  pose proof (findTldNode_unique tree com "com" U Hin Hd) as Hfind.
  assert (Hnb : only_child_is_exception com = false).
  { unfold only_child_is_exception. now rewrite Hsub. }
  assert (Hnone : forall label, findTldNode com label = None).
  { intros label. unfold findTldNode. now rewrite Hsub. }
  assert (Hleaf : forall label next,
             findRegisteredDomain com label next = Some label).
  { intros label next. apply findRegisteredDomain_unmatched. apply Hnone. }
  assert (Hwalk : forall label next,
             findRegisteredDomain tree "com" (label :: next)
             = Some (label ++ "." ++ "com")).
  { intros label next.
    rewrite (findRegisteredDomain_descend _ _ _ _ _ Hfind Hnb), Hleaf.
    reflexivity. }
  pose proof (findRegisteredDomain_consumed _ _ _ Hfind Hnb) as Hcons.
  assert (Hdrop : forall drop_unknown,
             getRegisteredDomainDrop "www.example.com" tree drop_unknown
             = Some "example.com"
             /\ getRegisteredDomainDrop "example.com" tree drop_unknown
                = Some "example.com"
             /\ getRegisteredDomainDrop "com" tree drop_unknown = None).
  { intros d.
    unfold getRegisteredDomainDrop, getRegisteredDomainDropI.
    rewrite split_www_example_com, split_example_com, split_com.
    rewrite !Hwalk, Hcons.
    split; [|split]; reflexivity. }
  destruct (Hdrop 0%Z) as (H1 & H2 & H3).
  split; [exact H1|]. split; [exact H2|]. split; [exact H3|].
  split; [exact Hdrop|]. split; [exact Hwalk|]. split; [exact Hcons|].
  split; [exact Hfind|exact Hnone].
Qed.

Lemma ordinary_two_level_suffix_witness :
  getRegisteredDomain "www.example.com" ck_tree = Some "example.com"
  /\ getRegisteredDomain "example.com" ck_tree = Some "example.com"
  /\ getRegisteredDomain "com" ck_tree = None
  /\ getRegisteredDomainDrop "www.example.com" ck_tree 1 = Some "example.com"
  /\ findRegisteredDomain ck_tree "com" ["example"; "www"]
     = Some "example.com"
  /\ findRegisteredDomain ck_tree "com" [] = None.
Proof.
  destruct (ordinary_two_level_suffix ck_tree (TldNode "com" NoAttr []))
    as (H1 & H2 & H3 & Hd & Hw & Hc & _).
  - unfold unique_labels. simpl.
    constructor.
    + intros [H|[]]. discriminate.
    + constructor; [intros []|constructor].
  - simpl. right. left. reflexivity.
  - reflexivity.
  - reflexivity.
  - destruct (Hd 1%Z) as (D1 & _ & _).
    exact (conj H1 (conj H2 (conj H3
             (conj D1 (conj (Hw "example" ["www"]) Hc))))).
Defined.

(** C9.  Whatever the host name, the tree and the mode, a registered domain
    that is returned contains a dot. *)
Theorem getRegisteredDomainDrop_has_dot (hostname : string) (tree : tldnode)
  (drop_unknown : Z) (r : string) :
  getRegisteredDomainDrop hostname tree drop_unknown = Some r ->
  strchr r "." <> None
  /\ exists a b, r = a ++ "." ++ b.
Proof.
  unfold getRegisteredDomainDrop, getRegisteredDomainDropI.
  intros H.
  assert (Hdot : strchr r "." <> None).
  { destruct (match split_hostname hostname with
              | [] => None
              | val :: next => findRegisteredDomain tree val next
              end) as [res|]; [|discriminate].
    destruct (strchr res ".") eqn:E.
    - injection H as <-. now rewrite E.
    - destruct (split_hostname hostname) as [|v [|v' nx]]; try discriminate.
      destruct (Z.eqb drop_unknown 0); [|discriminate].
      injection H as <-. apply concatDomLabel_has_dot. }
  split; [exact Hdot|].
  clear H. induction r as [|c r IH]; simpl in Hdot; [contradiction|].
  destruct (Ascii.eqb_spec c "."%char) as [->|_].
  - now exists EmptyString, r.
  - destruct (strchr r ".") eqn:E; [|contradiction].
    destruct IH as (a & b & ->); [discriminate|].
    now exists (String c a), b.
Qed.

Lemma getRegisteredDomainDrop_has_dot_witness :
  strchr "example.com" "." <> None
  /\ exists a b, "example.com" = a ++ "." ++ b.
Proof.
  apply (getRegisteredDomainDrop_has_dot "www.example.com" ck_tree 1).
  reflexivity.
Defined.

(** ** Splitting the host name *)

Section Split.

Local Abbreviation dot := "."%char.

Lemma is_delim_dot (c : ascii) : is_delim "." c = Ascii.eqb c dot.
Proof. simpl. apply orb_false_r. Qed.

Lemma labels_of_empty : labels_of EmptyString = [].
Proof. reflexivity. Qed.

Lemma labels_of_dot (s : string) : labels_of (String dot s) = labels_of s.
Proof. reflexivity. Qed.

Lemma split_keep_empty_cons (s : string) :
  exists w ws, split_keep_empty dot s = w :: ws.
Proof.
  destruct s as [|c s]; simpl; [now eexists; eexists|].
  destruct (Ascii.eqb c dot); [now eexists; eexists|].
  destruct (split_keep_empty dot s); now eexists; eexists.
Qed.

Lemma labels_of_skip_delims (s : string) :
  labels_of (skip_delims "." s) = labels_of s.
Proof.
  induction s as [|c s IH]; [reflexivity|].
  cbn [skip_delims]. rewrite is_delim_dot.
  destruct (Ascii.eqb_spec c dot) as [->|_]; [|reflexivity].
  now rewrite IH, labels_of_dot.
Qed.

Lemma skip_delims_head (s : string) (c : ascii) (r : string) :
  skip_delims "." s = String c r -> Ascii.eqb c dot = false.
Proof.
  induction s as [|x s IH]; [discriminate|].
  cbn [skip_delims]. rewrite is_delim_dot.
  destruct (Ascii.eqb x dot) eqn:E; [exact IH|].
  intros H. injection H as <- _. exact E.
Qed.

Lemma skip_delims_length (s : string) :
  String.length (skip_delims "." s) <= String.length s.
Proof.
  induction s as [|x s IH]; [reflexivity|].
  cbn [skip_delims]. destruct (is_delim "." x); simpl; lia.
Qed.

(** What [span_token] cuts off is the first piece of the split. *)
Lemma span_token_split (s : string) :
  split_keep_empty dot s =
  fst (span_token "." s)
    :: match snd (span_token "." s) with
       | EmptyString => []
       | String _ after' => split_keep_empty dot after'
       end.
Proof.
  induction s as [|c s IH]; [reflexivity|].
  cbn [span_token split_keep_empty]. rewrite is_delim_dot.
  destruct (Ascii.eqb c dot); [reflexivity|].
  rewrite IH. now destruct (span_token "." s).
Qed.

Lemma span_token_length (s : string) :
  String.length (snd (span_token "." s)) <= String.length s.
Proof.
  induction s as [|c s IH]; [reflexivity|].
  cbn [span_token]. destruct (is_delim "." c); [reflexivity|].
  destruct (span_token "." s). simpl in *. lia.
Qed.

Lemma strtok_r_continue (delim saveptr other : string) :
  strtok_r None delim saveptr = strtok_r (Some saveptr) delim other.
Proof. reflexivity. Qed.

(** One call of [strtok_r] takes the first non-empty label off the text. *)
Lemma strtok_r_labels (s other : string) :
  match strtok_r (Some s) "." other with
  | (None, _) => labels_of s = []
  | (Some tok, saveptr') =>
      labels_of s = tok :: labels_of saveptr'
      /\ String.length saveptr' < String.length s
  end.
Proof.
  unfold strtok_r.
  rewrite <- (labels_of_skip_delims s).
  pose proof (skip_delims_length s) as Hlen.
  destruct (skip_delims "." s) as [|c r] eqn:E; [reflexivity|].
  pose proof (skip_delims_head _ _ _ E) as Hc.
  unfold labels_of at 1. rewrite span_token_split.
  pose proof (span_token_length r) as Hr.
  cbn [span_token] in *. rewrite is_delim_dot, Hc.
  destruct (span_token "." r) as [tok after]. cbn [fst snd] in *.
  cbn [filter nonempty].
  destruct after as [|x after']; simpl in *; split; try reflexivity; lia.
Qed.

(** The loop needs one iteration per token: the fuel that
    [split_hostname] gives is never used up. *)
Lemma split_loop_fuel (fuel : nat) :
  forall tok saveptr head,
    String.length saveptr < fuel ->
    split_loop fuel (Some tok) saveptr head
    = (rev (labels_of saveptr) ++ tok :: head)%list.
Proof.
  induction fuel as [|fuel IH]; intros tok saveptr head Hlt; [lia|].
  cbn [split_loop].
  rewrite (strtok_r_continue "." saveptr EmptyString).
  pose proof (strtok_r_labels saveptr EmptyString) as H.
  destruct (strtok_r (Some saveptr) "." "") as [[tok'|] saveptr'].
  - destruct H as [-> Hlen]. rewrite IH by lia.
    cbn [rev]. now rewrite <- app_assoc.
  - rewrite H. now destruct fuel.
Qed.

Lemma split_hostname_labels (hostname : string) :
  split_hostname hostname = rev (labels_of hostname).
Proof.
  unfold split_hostname, strlen.
  pose proof (strtok_r_labels hostname EmptyString) as H.
  destruct (strtok_r (Some hostname) "." "") as [[tok|] saveptr].
  - destruct H as [-> Hlen]. rewrite split_loop_fuel by lia. reflexivity.
  - rewrite H. reflexivity.
Qed.

Lemma dot_free_cons (c : ascii) (s : string) :
  dot_free (String c s) <-> Ascii.eqb c dot = false /\ dot_free s.
Proof.
  unfold dot_free. simpl. destruct (Ascii.eqb c dot).
  - split; [discriminate|intros [? _]; discriminate].
  - destruct (strchr s dot); simpl; split; try discriminate; auto.
    intros [_ ?]. discriminate.
Qed.

Lemma split_keep_empty_dot_free (s : string) :
  Forall dot_free (split_keep_empty dot s).
Proof.
  induction s as [|c s IH]; simpl.
  - now repeat constructor.
  - destruct (Ascii.eqb c dot) eqn:E.
    + constructor; [reflexivity|exact IH].
    + destruct (split_keep_empty dot s) as [|w ws].
      * repeat constructor. now apply dot_free_cons.
      * inversion IH; subst. constructor; [|assumption].
        now apply dot_free_cons.
Qed.

Lemma split_keep_empty_append (t r : string) :
  dot_free t ->
  split_keep_empty dot (t ++ String dot r) = t :: split_keep_empty dot r.
Proof.
  induction t as [|c t IH]; intros Hf; [reflexivity|].
  apply dot_free_cons in Hf as [Hc Hf].
  simpl. now rewrite Hc, IH.
Qed.

Lemma split_keep_empty_single (t : string) :
  dot_free t -> split_keep_empty dot t = [t].
Proof.
  induction t as [|c t IH]; intros Hf; [reflexivity|].
  apply dot_free_cons in Hf as [Hc Hf].
  simpl. now rewrite Hc, IH.
Qed.

Lemma labels_of_concat (toks : list string) :
  Forall (fun t => dot_free t /\ nonempty t = true) toks ->
  labels_of (String.concat "." toks) = toks.
Proof.
  induction toks as [|t toks IH]; intros H; [reflexivity|].
  inversion H as [|? ? [Hf Hne] Hrest]; subst.
  destruct toks as [|t' toks].
  - cbn [String.concat]. unfold labels_of.
    rewrite split_keep_empty_single by assumption.
    cbn [filter]. now rewrite Hne.
  - change (String.concat "." (t :: t' :: toks))
      with (t ++ String dot (String.concat "." (t' :: toks))).
    unfold labels_of at 1.
    rewrite split_keep_empty_append by assumption.
    cbn [filter]. rewrite Hne. f_equal. now apply IH.
Qed.

Lemma labels_of_collapse_dots (hostname : string) :
  labels_of (collapse_dots hostname) = labels_of hostname.
Proof.
  unfold collapse_dots. apply labels_of_concat.
  unfold labels_of. apply Forall_forall. intros t Ht.
  apply filter_In in Ht as [Hin Hne]. split; [|exact Hne].
  pose proof (split_keep_empty_dot_free hostname) as F.
  rewrite Forall_forall in F. now apply F.
Qed.

Lemma labels_of_only_dots (hostname : string) :
  only_dots hostname = true -> labels_of hostname = [].
Proof.
  induction hostname as [|c s IH]; [reflexivity|].
  simpl. intros H. apply andb_true_iff in H as [Hc Hs].
  apply Ascii.eqb_eq in Hc. subst c. rewrite labels_of_dot. now apply IH.
Qed.

End Split.

(** C4 as written fails: the two dots of [a..b] give no empty label. *)
Lemma split_keeps_empty_counterexample :
  split_hostname "a..b" = ["b"; "a"]
  /\ rev (split_keep_empty "."%char "a..b") = ["b"; ""; "a"]
  /\ split_hostname "a..b" <> rev (split_keep_empty "."%char "a..b").
Proof. repeat split; vm_compute; discriminate. Qed.

(** C4, amended.  The split step yields the labels between the dots that are
    not empty (leading, trailing and repeated dots give no label), in
    reverse: the top-level label first, the most specific one last. *)
Theorem split_hostname_reversed_nonempty (hostname : string) :
  split_hostname hostname
  = rev (filter nonempty (split_keep_empty "."%char hostname))
  /\ Forall (fun l => l <> EmptyString /\ strchr l "." = None)
       (split_hostname hostname).
Proof.
  rewrite split_hostname_labels. split; [reflexivity|].
  apply Forall_forall. intros l Hl. apply in_rev in Hl.
  unfold labels_of in Hl. apply filter_In in Hl as [Hin Hne].
  split.
  - intros ->. discriminate.
  - pose proof (split_keep_empty_dot_free hostname) as F.
    rewrite Forall_forall in F. now apply F.
Qed.

(** C10.  The matcher gives the same result on a host name and on the host
    name with its empty labels removed, and null on a host name that is empty
    or made of dots only. *)
Theorem getRegisteredDomainDrop_ignores_empty_labels (hostname : string)
  (tree : tldnode) (drop_unknown : Z) :
  getRegisteredDomainDrop hostname tree drop_unknown
  = getRegisteredDomainDrop (collapse_dots hostname) tree drop_unknown
  /\ (only_dots hostname = true ->
      getRegisteredDomainDrop hostname tree drop_unknown = None).
Proof.
  unfold getRegisteredDomainDrop, getRegisteredDomainDropI.
  rewrite !split_hostname_labels, labels_of_collapse_dots.
  split; [reflexivity|].
  intros H. now rewrite (labels_of_only_dots _ H).
Qed.

Lemma getRegisteredDomainDrop_ignores_empty_labels_witness :
  collapse_dots "..www..example.com." = "www.example.com"
  /\ getRegisteredDomainDrop "..www..example.com." ck_tree 0
     = getRegisteredDomainDrop "www.example.com" ck_tree 0
  /\ getRegisteredDomainDrop "..." ck_tree 0 = None.
Proof.
  split; [reflexivity|split].
  - exact (proj1 (getRegisteredDomainDrop_ignores_empty_labels
                    "..www..example.com." ck_tree 0)).
  - exact (proj2 (getRegisteredDomainDrop_ignores_empty_labels
                    "..." ck_tree 0) eq_refl).
Defined.

Example encode_ck_tree : encode ck_tree = ck_text.
Proof. reflexivity. Qed.

Example load_ck_text : loadTldTree ck_text = Parsed (Some ck_tree).
Proof. reflexivity. Qed.

Example wf_ck_tree : wf_node ck_tree = true.
Proof. reflexivity. Qed.

(** A marker alone is a node with an empty label. *)
Example load_marker_alone :
  loadTldTree "root(1:ck(2:*,www(1:!)))"
  = Parsed (Some (TldNode "root" NoAttr
                    [TldNode "ck" NoAttr
                       [TldNode "*" NoAttr [];
                        TldNode "www" NoAttr [TldNode "" THIS []]]])).
Proof. reflexivity. Qed.

(** Texts outside the grammar.  A bare label is scanned to the end of the
    text and never stored; a count larger than the number of children sends
    the cursor past the terminator. *)
Example load_bare_label : loadTldTree "com" = Parsed None.
Proof. reflexivity. Qed.

Example read_bare_label :
  readTldString 5 ("com" ++ String NUL "") 3 0 = Parsed (None, 3).
Proof. reflexivity. Qed.

Example load_count_too_large : loadTldTree "a(3:b)" = Fault OutOfBounds.
Proof. reflexivity. Qed.

Example atoi_negative : atoi "-1" = Some (-1)%Z.
Proof. reflexivity. Qed.

(** ** The parser *)

Section Text.

Lemma append_assoc (a b c : string) : (a ++ b) ++ c = a ++ b ++ c.
Proof. induction a as [|x a IH]; simpl; [reflexivity|now rewrite IH]. Qed.

Lemma append_length (a b : string) :
  String.length (a ++ b) = String.length a + String.length b.
Proof. induction a as [|x a IH]; simpl; [reflexivity|now rewrite IH]. Qed.

Lemma suffix_at_length (s : string) (pos : nat) (tail : string) :
  suffix_at s pos tail -> String.length s = pos + String.length tail.
Proof. intros (pre & -> & <-). apply append_length. Qed.

Lemma suffix_at_get (s : string) (pos : nat) (c : ascii) (tail : string) :
  suffix_at s pos (String c tail) -> String.get pos s = Some c.
Proof.
  intros (pre & -> & <-).
  induction pre as [|x pre IH]; simpl; [reflexivity|exact IH].
Qed.

Lemma suffix_at_next (s : string) (pos : nat) (c : ascii) (tail : string) :
  suffix_at s pos (String c tail) -> suffix_at s (S pos) tail.
Proof.
  intros (pre & -> & <-). exists (pre ++ String c EmptyString). split.
  - now rewrite append_assoc.
  - rewrite append_length. simpl. lia.
Qed.

Lemma suffix_at_skip (s : string) (pos : nat) (a tail : string) :
  suffix_at s pos (a ++ tail) -> suffix_at s (pos + String.length a) tail.
Proof.
  intros (pre & -> & <-). exists (pre ++ a). split.
  - now rewrite append_assoc.
  - now rewrite append_length.
Qed.

Lemma substring_prefix (a tail : string) :
  substring 0 (String.length a) (a ++ tail) = a.
Proof.
  induction a as [|x a IH]; simpl.
  - now destruct tail.
  - now rewrite IH.
Qed.

Lemma suffix_at_substring (s : string) (pos : nat) (a tail : string) :
  suffix_at s pos (a ++ tail) -> substring pos (String.length a) s = a.
Proof.
  intros (pre & -> & <-).
  induction pre as [|x pre IH]; simpl; [apply substring_prefix|exact IH].
Qed.

Lemma all_chars_append (p : ascii -> bool) (a b : string) :
  all_chars p (a ++ b) = all_chars p a && all_chars p b.
Proof.
  induction a as [|x a IH]; simpl; [reflexivity|].
  now rewrite IH, andb_assoc.
Qed.

Lemma all_chars_weaken (p q : ascii -> bool) (s : string) :
  (forall c, p c = true -> q c = true) ->
  all_chars p s = true -> all_chars q s = true.
Proof.
  intros Hpq. induction s as [|x s IH]; simpl; [reflexivity|].
  intros H. apply andb_true_iff in H as [Hx Hs].
  now rewrite (Hpq _ Hx), IH.
Qed.

Lemma c_string_no_nul (s : string) :
  all_chars (fun c => negb (Ascii.eqb c NUL)) s = true -> c_string s = s.
Proof.
  induction s as [|x s IH]; simpl; [reflexivity|].
  intros H. apply andb_true_iff in H as [Hx Hs].
  apply negb_true_iff in Hx. now rewrite Hx, IH.
Qed.

End Text.

Section Count.

Lemma digits_of_uint (d : Decimal.uint) :
  all_chars isdigit (NilEmpty.string_of_uint d) = true.
Proof. induction d; simpl; auto. Qed.

Lemma atoi_digits_of_uint (d : Decimal.uint) :
  forall acc : nat,
    atoi_digits (NilEmpty.string_of_uint d) (Z.of_nat acc)
    = Z.of_nat (Nat.of_uint_acc d acc).
Proof.
  induction d; intros acc; cbn [NilEmpty.string_of_uint Nat.of_uint_acc];
    [reflexivity|..];
    cbn [atoi_digits];
    match goal with
    | |- context [isdigit ?c] =>
        change (isdigit c) with true; cbv iota
    end;
    rewrite <- IHd; f_equal; rewrite Nat.tail_mul_spec;
    cbn [nat_of_ascii]; vm_compute (Z.of_nat (_ - 48)); lia.
Qed.

Lemma count_text_digits (n : nat) : all_chars isdigit (count_text n) = true.
Proof.
  unfold count_text, NilZero.string_of_uint.
  destruct (Nat.to_uint n) eqn:E; try reflexivity;
    rewrite <- E; apply digits_of_uint.
Qed.

Lemma atoi_of_digits (s : string) (v : Z) :
  all_chars isdigit s = true -> atoi_digits s 0 = v ->
  (INT_MIN <= v <= INT_MAX)%Z -> atoi s = Some v.
Proof.
  intros Hd Hv Hr. unfold atoi.
  assert (Hs : skip_spaces s = s).
  { destruct s as [|c s]; [reflexivity|]. simpl in *.
    apply andb_true_iff in Hd as [Hc _].
    assert (isspace c = false) as ->; [|reflexivity].
    unfold isdigit, isspace in *.
    apply andb_true_iff in Hc as [H1 H2].
    apply Nat.leb_le in H1, H2.
    apply orb_false_iff. split.
    - apply Nat.eqb_neq. lia.
    - apply andb_false_iff. right. apply Nat.leb_gt. lia. }
  rewrite Hs.
  assert (Hv' : match s with
                | String "-"%char rest => (- atoi_digits rest 0)%Z
                | String "+"%char rest => atoi_digits rest 0
                | _ => atoi_digits s 0
                end = v).
  { destruct s as [|c s]; [exact Hv|].
    simpl in Hd. apply andb_true_iff in Hd as [Hc _].
    destruct (Ascii.eqb_spec c "-"%char) as [->|Hm]; [discriminate|].
    destruct (Ascii.eqb_spec c "+"%char) as [->|Hp]; [discriminate|].
    rewrite <- Hv.
    destruct c as [[] [] [] [] [] [] [] []]; try reflexivity;
      try (exfalso; now apply Hm); exfalso; now apply Hp. }
  rewrite Hv'.
  destruct Hr as [H1 H2]. apply Z.leb_le in H1, H2. now rewrite H1, H2.
Qed.

Lemma atoi_count_text (n : nat) :
  (Z.of_nat n <= INT_MAX)%Z -> atoi (count_text n) = Some (Z.of_nat n).
Proof.
  intros Hn. apply atoi_of_digits.
  - apply count_text_digits.
  - unfold count_text.
    rewrite <- (DecimalNat.Unsigned.of_to n) at 2.
    generalize (Nat.to_uint n). intros d.
    destruct d; [reflexivity|..]; exact (atoi_digits_of_uint _ 0).
  - unfold INT_MIN, INT_MAX in *. lia.
Qed.

End Count.

Section Scan.

Variables (s : string) (len : nat).

(** State 0 over characters that are not structural: the loop moves on,
    and remembers whether a ['!'] went by. *)
Lemma scan_general (chars : string) :
  forall start nd a pos tail fuel,
    suffix_at s pos (chars ++ tail) ->
    all_chars (fun c => negb (is_structural c)) chars = true ->
    pos + String.length chars < len ->
    readTldString_loop (String.length chars + fuel) s len
      start GeneralRead nd a pos
    = readTldString_loop fuel s len
        start GeneralRead nd (mark chars a) (pos + String.length chars).
Proof.
  induction chars as [|c chars IH]; intros start nd a pos tail fuel Hs Hc Hl.
  - simpl. now rewrite Nat.add_0_r.
  - simpl in Hs, Hc, Hl. apply andb_true_iff in Hc as [Hc Hcs].
    apply negb_true_iff in Hc.
    cbn [String.length Nat.add readTldString_loop mark].
    rewrite (suffix_at_get _ _ _ _ Hs), Hc.
    assert (Hlt : Nat.ltb (S pos) len = true) by (apply Nat.ltb_lt; lia).
    rewrite Hlt.
    apply suffix_at_next in Hs.
    replace (pos + S (String.length chars))
      with (S pos + String.length chars) by lia.
    destruct (Ascii.eqb c "!"%char);
      apply IH with (tail := tail); auto; lia.
Qed.

(** State 1 over characters that are not [':']. *)
Lemma scan_count (chars : string) :
  forall start nd a pos tail fuel,
    suffix_at s pos (chars ++ tail) ->
    all_chars (fun c => negb (Ascii.eqb c ":"%char)) chars = true ->
    pos + String.length chars < len ->
    readTldString_loop (String.length chars + fuel) s len
      start ReadCount nd a pos
    = readTldString_loop fuel s len
        start ReadCount nd a (pos + String.length chars).
Proof.
  induction chars as [|c chars IH]; intros start nd a pos tail fuel Hs Hc Hl.
  - simpl. now rewrite Nat.add_0_r.
  - simpl in Hs, Hc, Hl. apply andb_true_iff in Hc as [Hc Hcs].
    apply negb_true_iff in Hc.
    cbn [String.length Nat.add readTldString_loop].
    rewrite (suffix_at_get _ _ _ _ Hs), Hc.
    assert (Hlt : Nat.ltb (S pos) len = true) by (apply Nat.ltb_lt; lia).
    rewrite Hlt.
    apply suffix_at_next in Hs.
    replace (pos + S (String.length chars))
      with (S pos + String.length chars) by lia.
    apply IH with (tail := tail); auto; lia.
Qed.

End Scan.

Section Label.

Lemma mark_append (x y : string) (a : attr_ptr) :
  mark (x ++ y) a = mark y (mark x a).
Proof.
  revert a. induction x as [|c x IH]; intros a; simpl; [reflexivity|].
  apply IH.
Qed.

Lemma mark_plain (d : string) :
  all_chars (label_char NoAttr) d = true -> mark d NoAttr = NoAttr.
Proof.
  induction d as [|c d IH]; simpl; [reflexivity|].
  intros H. apply andb_true_iff in H as [Hc Hd].
  unfold label_char in Hc. apply andb_true_iff in Hc as [_ Hc].
  apply negb_true_iff in Hc. rewrite Hc. now apply IH.
Qed.

Lemma mark_label (d : string) (a : attr_ptr) :
  all_chars (label_char a) d = true -> mark (d ++ marker a) NoAttr = a.
Proof.
  intros H. rewrite mark_append. destruct a; simpl.
  - now apply mark_plain.
  - reflexivity.
Qed.

Lemma label_char_not_structural (a : attr_ptr) (c : ascii) :
  label_char a c = true -> negb (is_structural c) = true.
Proof.
  unfold label_char. intros H.
  apply andb_true_iff in H as [H _]. now apply andb_true_iff in H as [H _].
Qed.

Lemma label_char_not_nul (a : attr_ptr) (c : ascii) :
  label_char a c = true -> negb (Ascii.eqb c NUL) = true.
Proof.
  unfold label_char. intros H.
  apply andb_true_iff in H as [H _]. now apply andb_true_iff in H as [_ H].
Qed.

Lemma label_text_not_structural (d : string) (a : attr_ptr) :
  all_chars (label_char a) d = true ->
  all_chars (fun c => negb (is_structural c)) (d ++ marker a) = true.
Proof.
  intros H. rewrite all_chars_append.
  rewrite (all_chars_weaken _ _ d (label_char_not_structural a) H).
  now destruct a.
Qed.

Lemma label_length (d : string) (a : attr_ptr) :
  String.length (d ++ marker a)
  = String.length d + match a with NoAttr => 0 | THIS => 1 end.
Proof. rewrite append_length. now destruct a. Qed.

(** State 0 from the start of a well-formed label to the structural
    character that ends it: the label is stored without its marker, and
    the attribute is set exactly for an exception. *)
Lemma read_label (s : string) (len pos : nat) (d : string) (a : attr_ptr)
  (c : ascii) (tail : string) (fuel : nat) :
  all_chars (label_char a) d = true ->
  is_structural c = true ->
  suffix_at s pos ((d ++ marker a) ++ String c tail) ->
  pos + String.length (d ++ marker a) < len ->
  readTldString (String.length (d ++ marker a) + S fuel) s len pos
  = let pos_c := pos + String.length (d ++ marker a) in
    if Ascii.eqb c "("%char then
      if Nat.ltb (S pos_c) len
      then readTldString_loop fuel s len pos_c ReadCount (Some d) a (S pos_c)
      else Parsed (Some (TldNode d a []), S pos_c)
    else Parsed (Some (TldNode d a []), pos_c).
Proof.
  intros Hd Hc Hs Hl. unfold readTldString.
  rewrite (scan_general s len (d ++ marker a) pos None NoAttr pos
             (String c tail) (S fuel) Hs
             (label_text_not_structural d a Hd) Hl).
  rewrite (mark_label d a Hd).
  pose proof (suffix_at_skip _ _ _ _ Hs) as Hs'.
  cbn [readTldString_loop].
  rewrite (suffix_at_get _ _ _ _ Hs'), Hc.
  assert (Hlen : match a with
                 | THIS => pos + String.length (d ++ marker a) - pos - 1
                 | NoAttr => pos + String.length (d ++ marker a) - pos
                 end = String.length d).
  { rewrite label_length. destruct a; lia. }
  rewrite Hlen.
  rewrite append_assoc in Hs.
  rewrite (suffix_at_substring _ _ _ _ Hs).
  rewrite (c_string_no_nul d
             (all_chars_weaken _ _ d (label_char_not_nul a) Hd)).
  reflexivity.
Qed.

End Label.

Section Nodes.

Variables (s : string) (len : nat).

Lemma siblings_text_last (x : string) :
  siblings_text [x] = x ++ ")".
Proof. reflexivity. Qed.

Lemma siblings_text_more (x y : string) (l : list string) :
  siblings_text (x :: y :: l) = x ++ "," ++ siblings_text (y :: l).
Proof.
  unfold siblings_text.
  change (String.concat "," (x :: y :: l))
    with (x ++ "," ++ String.concat "," (y :: l)).
  now rewrite !append_assoc.
Qed.

Lemma siblings_text_length (l : list string) :
  List.length l <= String.length (siblings_text l).
Proof.
  induction l as [|x l IH]; [simpl; lia|].
  destruct l as [|y l].
  - rewrite siblings_text_last, append_length. simpl. lia.
  - rewrite siblings_text_more, !append_length. simpl in *. lia.
Qed.

Lemma read_children_done (rd : nat -> outcome (option tldnode * nat))
  (fuel : nat) (i n : Z) (p : nat) :
  (n <= i)%Z -> read_children rd fuel i n p = Parsed (Some [], p).
Proof.
  intros H. apply Z.ltb_ge in H.
  destruct fuel; cbn [read_children]; now rewrite H.
Qed.

Lemma read_children_step (rd : nat -> outcome (option tldnode * nat))
  (fuel : nat) (i n : Z) (p p' : nat) (child : option tldnode) :
  (i < n)%Z -> rd (p + 1) = Parsed (child, p') ->
  read_children rd (S fuel) i n p
  = match read_children rd fuel (i + 1)%Z n p' with
    | Parsed (children, p'') => Parsed (cons_child child children, p'')
    | Fault f => Fault f
    | NoFuel => NoFuel
    end.
Proof.
  intros H E. apply Z.ltb_lt in H.
  cbn [read_children]. now rewrite H, E.
Qed.

(** The children loop over the siblings that remain, from the separator at
    [p] to the closing parenthesis. *)
Lemma read_children_siblings (rd : nat -> outcome (option tldnode * nat))
  (n : Z) (ks : list tldnode) :
  forall k i p fuel tail,
    Forall (reads_node s len rd (p + 1)) (k :: ks) ->
    suffix_at s (p + 1) (siblings_text (map encode (k :: ks)) ++ tail) ->
    (i + Z.of_nat (List.length (k :: ks)) = n)%Z ->
    p + String.length (siblings_text (map encode (k :: ks))) < len ->
    String.length s <= fuel + p + 1 ->
    read_children rd fuel i n p
    = Parsed (Some (k :: ks),
              p + String.length (siblings_text (map encode (k :: ks)))).
Proof.
  induction ks as [|k' ks IH]; intros k i p fuel tail Hrd Hs Hn Hl Hf.
  - cbn [map] in *. rewrite siblings_text_last in *.
    rewrite append_assoc in Hs. rewrite append_length in *.
    cbn [List.length String.length] in *.
    inversion Hrd as [|? ? Hk _]; subst.
    pose proof (suffix_at_length _ _ _ Hs) as Hlen.
    rewrite append_length in Hlen. simpl in Hlen.
    destruct fuel as [|fuel]; [lia|].
    rewrite (read_children_step rd fuel i _ p
               (p + 1 + String.length (encode k)) (Some k)); [|lia|].
    + rewrite read_children_done by lia. do 2 f_equal. lia.
    + apply (Hk (p + 1) (")" ++ tail)); [lia|exact Hs|].
      unfold terminated. destruct (subnodes k).
      * split; [|lia]. exists ")"%char, tail. split; [reflexivity|now right].
      * lia.
  - change (map encode (k :: k' :: ks))
      with (encode k :: encode k' :: map encode ks) in *.
    rewrite siblings_text_more in *.
    change (encode k' :: map encode ks) with (map encode (k' :: ks)) in *.
    rewrite append_assoc in Hs. rewrite !append_length in *.
    cbn [String.length] in *.
    inversion Hrd as [|? ? Hk Hrest]; subst.
    pose proof (suffix_at_skip _ _ _ _ Hs) as Hs'.
    rewrite append_assoc in Hs'.
    apply suffix_at_next in Hs'.
    pose proof (suffix_at_length _ _ _ Hs') as Hlen.
    rewrite append_length in Hlen.
    pose proof (siblings_text_length (map encode (k' :: ks))) as Hsl.
    cbn [map List.length] in Hsl.
    destruct fuel as [|fuel]; [lia|].
    rewrite (read_children_step rd fuel i _ p
               (p + 1 + String.length (encode k)) (Some k)).
    + rewrite (IH k' (i + 1)%Z (p + 1 + String.length (encode k)) fuel tail).
      * do 2 f_equal. lia.
      * eapply Forall_impl; [|exact Hrest].
        intros x Hx q tl Hq. apply Hx. lia.
      * replace (p + 1 + String.length (encode k) + 1)
          with (S (p + 1 + String.length (encode k))) by lia.
        exact Hs'.
      * cbn [List.length] in *. lia.
      * lia.
      * lia.
    + cbn [List.length]. lia.
    + apply (Hk (p + 1)
               (("," ++ siblings_text (map encode (k' :: ks))) ++ tail));
        [lia|exact Hs|].
      unfold terminated. destruct (subnodes k).
      * split; [|lia].
        exists ","%char, (siblings_text (map encode (k' :: ks)) ++ tail).
        split; [|now left].
        now rewrite append_assoc.
      * lia.
Qed.

End Nodes.

Section WellFormed.

Lemma append_nil_r (a : string) : a ++ EmptyString = a.
Proof. induction a as [|x a IH]; simpl; [reflexivity|now rewrite IH]. Qed.

Lemma digit_not_colon (c : ascii) :
  isdigit c = true -> negb (Ascii.eqb c ":"%char) = true.
Proof.
  intros H. apply negb_true_iff. apply Ascii.eqb_neq. intros ->.
  discriminate.
Qed.

Lemma digit_not_nul (c : ascii) :
  isdigit c = true -> negb (Ascii.eqb c NUL) = true.
Proof.
  intros H. apply negb_true_iff. apply Ascii.eqb_neq. intros ->.
  discriminate.
Qed.

Lemma fuel_split (fuel k : nat) :
  k + 1 <= fuel -> exists f, fuel = k + S f.
Proof. intros H. exists (fuel - k - 1). lia. Qed.

Lemma encode_leaf (d : string) (a : attr_ptr) :
  encode (TldNode d a []) = d ++ marker a.
Proof. cbn [encode map block_text]. now rewrite append_nil_r. Qed.

Lemma encode_block (d : string) (a : attr_ptr) (k : tldnode)
  (ks : list tldnode) :
  encode (TldNode d a (k :: ks))
  = (d ++ marker a)
      ++ String "("%char
           (count_text (List.length (k :: ks))
              ++ String ":"%char (siblings_text (map encode (k :: ks)))).
Proof.
  cbn [encode]. unfold block_text. cbn [map].
  change (List.length (encode k :: map encode ks))
    with (List.length (map encode (k :: ks))).
  rewrite length_map. now rewrite append_assoc.
Qed.

(** The parser on the text of a well-formed tree: it gives the tree back
    and stops right after the text. *)
Lemma readTldString_node (t : tldnode) :
  wf_node t = true ->
  forall s len pos tail fuel,
    suffix_at s pos (encode t ++ tail) ->
    terminated t tail len (pos + String.length (encode t)) ->
    String.length s + 1 <= fuel + pos ->
    readTldString fuel s len pos
    = Parsed (Some t, pos + String.length (encode t)).
Proof.
  induction t as [d a kids IH] using tldnode_ind.
  intros Hwf s len pos tail fuel Hs Ht Hf.
  cbn [wf_node] in Hwf.
  apply andb_true_iff in Hwf as [Hwf Hkids].
  apply andb_true_iff in Hwf as [Hd Hn].
  apply Z.leb_le in Hn.
  pose proof (suffix_at_length _ _ _ Hs) as Hlen.
  destruct kids as [|k ks].
  - rewrite encode_leaf in *.
    destruct Ht as [(c & tail' & -> & Hc) Hl].
    rewrite append_length in Hlen. cbn [String.length] in Hlen.
    destruct (fuel_split fuel (String.length (d ++ marker a)))
      as [f1 ->]; [lia|].
    rewrite (read_label s len pos d a c tail'); auto.
    + destruct Hc as [-> | ->]; reflexivity.
    + destruct Hc as [-> | ->]; reflexivity.
  - rewrite encode_block in *.
    remember (count_text (List.length (k :: ks))) as cnt eqn:Ecnt.
    remember (siblings_text (map encode (k :: ks))) as sib eqn:Esib.
    remember (d ++ marker a) as chars eqn:Echars.
    unfold terminated in Ht. cbn [subnodes] in Ht.
    repeat (rewrite append_assoc in Hs; cbn [append] in Hs).
    repeat (rewrite append_length in Hlen; cbn [String.length] in Hlen).
    repeat (rewrite append_length in Ht; cbn [String.length] in Ht).
    repeat (rewrite append_length; cbn [String.length]).
    assert (Hsib : 1 <= String.length sib).
    { subst sib. pose proof (siblings_text_length (map encode (k :: ks))).
      cbn [map List.length] in *. lia. }
    destruct (fuel_split fuel (String.length chars)) as [f1 ->]; [lia|].
    destruct (fuel_split f1 (String.length cnt)) as [f2 ->]; [lia|].
    subst chars.
    rewrite (read_label s len pos d a "("%char
               (cnt ++ String ":"%char (sib ++ tail)));
      [|exact Hd|reflexivity|exact Hs|lia].
    cbv zeta.
    remember (pos + String.length (d ++ marker a)) as pos_c eqn:Epc.
    change (Ascii.eqb "(" "(") with true. cbv iota.
    assert (Hlt : Nat.ltb (S pos_c) len = true) by (apply Nat.ltb_lt; lia).
    rewrite Hlt.
    pose proof (suffix_at_skip _ _ _ _ Hs) as Hs1.
    rewrite <- Epc in Hs1.
    apply suffix_at_next in Hs1.
    assert (Hdig : all_chars isdigit cnt = true)
      by (subst cnt; apply count_text_digits).
    rewrite (scan_count s len cnt pos_c (Some d) a (S pos_c)
               (String ":"%char (sib ++ tail)) (S f2) Hs1
               (all_chars_weaken _ _ cnt digit_not_colon Hdig));
      [|lia].
    pose proof (suffix_at_skip _ _ _ _ Hs1) as Hs2.
    cbn [readTldString_loop].
    rewrite (suffix_at_get _ _ _ _ Hs2).
    change (Ascii.eqb ":" ":") with true. cbv iota.
    replace (S pos_c + String.length cnt - pos_c - 1)
      with (String.length cnt) by lia.
    replace (pos_c + 1) with (S pos_c) by lia.
    rewrite (suffix_at_substring _ _ _ _ Hs1).
    rewrite (c_string_no_nul cnt
               (all_chars_weaken _ _ cnt digit_not_nul Hdig)).
    assert (Hatoi : atoi cnt = Some (Z.of_nat (List.length (k :: ks))))
      by (subst cnt; now apply atoi_count_text).
    rewrite Hatoi.
    assert (Hmod : (Z.of_nat (List.length (k :: ks)) mod UINT_MODULUS
                    = Z.of_nat (List.length (k :: ks)))%Z).
    { apply Z.mod_small. unfold UINT_MODULUS, INT_MAX in *. lia. }
    rewrite Hmod.
    apply suffix_at_next in Hs2.
    rewrite (read_children_siblings s len _ _ ks k 0%Z
               (S pos_c + String.length cnt) f2 tail).
    + rewrite <- Esib. unfold return_node.
      apply (f_equal Parsed). apply f_equal. lia.
    + apply Forall_forall. intros x Hx q tl Hq Hsq Htq.
      rewrite Forall_forall in IH.
      apply (IH x Hx) with (tail := tl); auto.
      * apply (proj1 (forallb_forall _ _) Hkids x Hx).
      * lia.
    + rewrite <- Esib.
      replace (S pos_c + String.length cnt + 1)
        with (S (S pos_c + String.length cnt)) by lia.
      exact Hs2.
    + lia.
    + rewrite <- Esib. lia.
    + lia.
Qed.

End WellFormed.

(** X9.  Loading the text of a well-formed tree that has children gives the
    tree back: loading is the inverse of encoding, and the fuel [loadTldTree]
    takes is enough. *)
Lemma loadTldTree_encode (t : tldnode) :
  wf_node t = true -> subnodes t <> [] ->
  loadTldTree (encode t) = Parsed (Some t).
Proof.
  intros Hwf Hkids. unfold loadTldTree.
  rewrite (readTldString_node t Hwf _ _ 0 (String NUL EmptyString)).
  - reflexivity.
  - now exists EmptyString.
  - unfold terminated. destruct (subnodes t); [contradiction|].
    rewrite append_length. simpl. lia.
  - lia.
Qed.

(** The text of a node with children ends with its closing parenthesis. *)
Lemma encode_block_closed (t : tldnode) :
  subnodes t <> [] -> exists body, encode t = body ++ ")".
Proof.
  destruct t as [d a [|k ks]]; [contradiction|]. intros _.
  exists ((d ++ marker a)
            ++ String "("%char
                 (count_text (List.length (k :: ks))
                    ++ String ":"%char
                         (String.concat "," (map encode (k :: ks))))).
  rewrite encode_block. unfold siblings_text.
  repeat (rewrite !append_assoc; cbn [append]). reflexivity.
Qed.

(** C7.  On the text of a well-formed node, wherever it stands in the string,
    one call of the parser reads exactly that node (label, marker and child
    block) and returns the offset that follows the node's text; for a node
    with children the text ends with its closing parenthesis, so the offset
    is the one right after it. *)
Theorem readTldString_consumes_one_node (t : tldnode) (pre tail : string)
  (len fuel : nat) :
  wf_node t = true ->
  terminated t tail len (String.length pre + String.length (encode t)) ->
  String.length (pre ++ encode t ++ tail) + 1 <= fuel + String.length pre ->
  readTldString fuel (pre ++ encode t ++ tail) len (String.length pre)
  = Parsed (Some t, String.length pre + String.length (encode t))
  /\ (subnodes t <> [] -> exists body, encode t = body ++ ")").
Proof.
  intros Hwf Ht Hf. split; [|apply encode_block_closed].
  apply (readTldString_node t Hwf _ _ _ tail); auto.
  now exists pre.
Qed.

Lemma readTldString_consumes_one_node_witness :
  readTldString 30 ("root(2:" ++ "ck(1:*(1:www!))" ++ ",com)") 28 7
  = Parsed (Some (TldNode "ck" NoAttr
                     [TldNode "*" NoAttr [TldNode "www" THIS []]]),
            22).
Proof.
  apply (readTldString_consumes_one_node
           (TldNode "ck" NoAttr [TldNode "*" NoAttr [TldNode "www" THIS []]])
           "root(2:" ",com)" 28 30).
  - reflexivity.
  - unfold terminated. simpl. lia.
  - simpl. lia.
Defined.

(** C8.  When the text of a well-formed node is a label followed by ['!']
    and then a structural character, the node read is an exception node and
    its stored label is the text before the ['!']. *)
Theorem exception_marker_excluded (d : string) (kids : list tldnode)
  (pre tail : string) (len fuel : nat) :
  let text := d ++ "!" ++ block_text (map encode kids) in
  wf_node (TldNode d THIS kids) = true ->
  terminated (TldNode d THIS kids) tail len
    (String.length pre + String.length text) ->
  String.length (pre ++ text ++ tail) + 1 <= fuel + String.length pre ->
  (exists c rest, block_text (map encode kids) ++ tail = String c rest
                  /\ is_structural c = true)
  /\ exists n pos',
       readTldString fuel (pre ++ text ++ tail) len (String.length pre)
       = Parsed (Some n, pos')
       /\ attr n = THIS /\ dom n = d.
Proof.
  intros text Hwf Ht Hf. split.
  - destruct kids as [|k ks].
    + destruct Ht as [(c & rest & -> & Hc) _].
      exists c, rest. split; [reflexivity|].
      now destruct Hc as [-> | ->].
    + cbn [map block_text append]. eexists. eexists. split; reflexivity.
  - exists (TldNode d THIS kids), (String.length pre + String.length text).
    split; [|split; reflexivity].
    apply (readTldString_node _ Hwf _ _ _ tail); auto.
    now exists pre.
Qed.

Lemma exception_marker_excluded_witness :
  exists n pos',
    readTldString 30 ("root(2:ck(1:*(1:" ++ ("www" ++ "!" ++ "") ++ ")),com)")
      28 16
    = Parsed (Some n, pos')
    /\ attr n = THIS /\ dom n = "www".
Proof.
  apply (exception_marker_excluded "www" [] "root(2:ck(1:*(1:" ")),com)"
           28 30).
  - reflexivity.
  - unfold terminated. simpl. split; [|lia].
    exists ")"%char, "),com)". split; [reflexivity|now right].
  - simpl. lia.
Defined.

(** ** The parser always comes to an end

    Whatever the array holds, the fuel that [loadTldTree] gives is never
    used up: every iteration moves the cursor forward, and a cursor outside
    the array ends the run. *)
Section Totality.

Variables (s : string) (len : nat).

Lemma get_some_lt (pos : nat) (c : ascii) :
  String.get pos s = Some c -> pos < String.length s.
Proof.
  revert pos. induction s as [|x r IH]; intros pos H; [discriminate|].
  destruct pos as [|pos]; simpl in *; [lia|].
  apply IH in H. lia.
Qed.

Lemma read_children_total (rd : nat -> outcome (option tldnode * nat)) (n : Z)
  (fuel : nat) :
  forall i p,
    (forall q, p + 1 <= q ->
       proceeds (option tldnode) q (rd q)
       /\ forall x q', rd q = Parsed (x, q') -> q < String.length s) ->
    String.length s <= fuel + p ->
    proceeds (option (list tldnode)) p (read_children rd fuel i n p).
Proof.
  induction fuel as [|fuel IH]; intros i p Hrd Hf.
  - cbn [read_children]. destruct (Z.ltb i n).
    + destruct (Hrd (p + 1) (Nat.le_refl _)) as [[Hnf Hle] Hlt].
      destruct (rd (p + 1)) as [[x q']| |].
      * specialize (Hlt x q' eq_refl). lia.
      * split; [discriminate|intros ? ? [=]].
      * contradiction.
    + split; [discriminate|]. intros ? ? [= _ <-]. lia.
  - cbn [read_children]. destruct (Z.ltb i n).
    + destruct (Hrd (p + 1) (Nat.le_refl _)) as [[Hnf Hle] Hlt].
      destruct (rd (p + 1)) as [[x q']| |].
      * specialize (Hlt x q' eq_refl). specialize (Hle x q' eq_refl).
        destruct (IH (i + 1)%Z q') as [Hnf' Hle'].
        { intros q Hq. apply Hrd. lia. }
        { lia. }
        destruct (read_children rd fuel (i + 1) n q') as [[xs q'']| |].
        -- specialize (Hle' xs q'' eq_refl).
           split; [discriminate|]. intros ? ? [= _ <-]. lia.
        -- split; [discriminate|intros ? ? [=]].
        -- contradiction.
      * split; [discriminate|intros ? ? [=]].
      * contradiction.
    + split; [discriminate|]. intros ? ? [= _ <-]. lia.
Qed.

Lemma return_node_proceeds (nd : option string) (a : attr_ptr)
  (children : option (list tldnode)) (pos p : nat) :
  pos <= p -> proceeds (option tldnode) pos (return_node nd a children p).
Proof.
  intros H. unfold return_node.
  split; [discriminate|]. intros ? ? [= _ <-]. exact H.
Qed.

Lemma proceeds_from_next (pos : nat) (r : outcome (option tldnode * nat)) :
  proceeds (option tldnode) (S pos) r -> proceeds (option tldnode) pos r.
Proof.
  intros [Hnf Hle]. split; [exact Hnf|].
  intros x p' E. specialize (Hle x p' E). lia.
Qed.

Lemma readTldString_loop_total (fuel : nat) :
  forall start state nd a pos,
    1 <= fuel ->
    String.length s + 1 <= fuel + pos ->
    proceeds (option tldnode) pos
      (readTldString_loop fuel s len start state nd a pos)
    /\ forall x p',
         readTldString_loop fuel s len start state nd a pos = Parsed (x, p')
         -> pos < String.length s.
Proof.
  induction fuel as [|fuel IH]; intros start state nd a pos H1 Hf; [lia|].
  cbn [readTldString_loop].
  destruct (String.get pos s) as [c|] eqn:G.
  2:{ split; [split|]; try discriminate; intros ? ? [=]. }
  apply get_some_lt in G.
  split; [|intros; exact G].
  assert (Hnext : forall start' state' nd' a',
             proceeds (option tldnode) pos
               (if Nat.ltb (S pos) len
                then readTldString_loop fuel s len start' state' nd' a'
                       (S pos)
                else return_node nd' a' (Some []) (S pos))).
  { intros start' state' nd' a'. destruct (Nat.ltb (S pos) len).
    - apply proceeds_from_next. apply IH; lia.
    - apply return_node_proceeds. lia. }
  destruct state.
  - destruct (is_structural c).
    + destruct (Ascii.eqb c "("%char); [apply Hnext|].
      apply return_node_proceeds. lia.
    + destruct (Ascii.eqb c "!"%char); apply Hnext.
  - destruct (Ascii.eqb c ":"%char); [|apply Hnext].
    destruct (atoi _) as [v|];
      [|split; [discriminate|intros ? ? [=]]].
    match goal with
    | |- context [read_children ?rd ?f ?i ?n ?p] =>
        destruct (read_children_total rd n f i p) as [Hnf Hle]
    end.
    + intros q Hq. apply IH; lia.
    + lia.
    + destruct (read_children _ _ _ _ _) as [[xs q']| |].
      * apply return_node_proceeds. specialize (Hle xs q' eq_refl). lia.
      * split; [discriminate|intros ? ? [=]].
      * contradiction.
Qed.

End Totality.

Theorem loadTldTree_terminates (tldString : string) :
  loadTldTree tldString <> NoFuel.
Proof.
  unfold loadTldTree, readTldString.
  destruct (readTldString_loop_total (tldString ++ String NUL EmptyString)
              (String.length (tldString ++ String NUL "") - 1)
              (S (String.length (tldString ++ String NUL "")))
              0 GeneralRead None NoAttr 0) as [[Hnf _] _]; [lia|lia|].
  destruct (readTldString_loop _ _ _ _ _ _ _ _) as [[root p]| |];
    [discriminate|discriminate|contradiction].
Qed.


(** * Further properties of the lookup *)

Section WalkShape.

Lemma concat_snoc (l : list string) (x : string) :
  l <> [] ->
  String.concat "." (l ++ [x]) = String.concat "." l ++ "." ++ x.
Proof.
  induction l as [|a l IH]; [contradiction|]. intros _.
  destruct l as [|b l]; [reflexivity|].
  change (String.concat "." ((a :: b :: l) ++ [x]))
    with (a ++ "." ++ String.concat "." ((b :: l) ++ [x])).
  rewrite IH by discriminate.
  change (String.concat "." (a :: b :: l))
    with (a ++ "." ++ String.concat "." (b :: l)).
  now rewrite !append_assoc.
Qed.

Lemma name_of_cons (v : string) (l : dlist) :
  l <> [] -> name_of (v :: l) = name_of l ++ "." ++ v.
Proof.
  intros H. unfold name_of. cbn [rev]. apply concat_snoc.
  intros E. apply H. destruct l; [reflexivity|].
  cbn [rev] in E. now destruct (rev l).
Qed.

Lemma name_of_single (v : string) : name_of [v] = v.
Proof. reflexivity. Qed.

Lemma name_of_has_dot (v : string) (l : dlist) :
  l <> [] -> strchr (name_of (v :: l)) "." <> None.
Proof. intros H. rewrite name_of_cons by exact H. apply strchr_append. Qed.

(** The walk returns the first labels of the list, as many as it looked at,
    and does not depend on the labels after them. *)
Lemma walk_prefix (nx : dlist) :
  forall t v r,
    findRegisteredDomain t v nx = Some r ->
    exists n,
      n <= List.length nx
      /\ r = name_of (v :: firstn n nx)
      /\ forall nx', firstn n nx' = firstn n nx ->
                     findRegisteredDomain t v nx' = Some r.
Proof.
  induction nx as [|v' nx IH]; intros t v r H.
  - exists 0. cbn [findRegisteredDomain] in H.
    destruct (findTldNode t v) as [sub|] eqn:F.
    + destruct (only_child_is_exception sub) eqn:B; [|discriminate].
      injection H as <-. repeat split; [reflexivity|].
      intros nx' _. now apply findRegisteredDomain_boundary with sub.
    + injection H as <-. repeat split; [reflexivity|].
      intros nx' _. now apply findRegisteredDomain_unmatched.
  - cbn [findRegisteredDomain] in H.
    destruct (findTldNode t v) as [sub|] eqn:F.
    + destruct (only_child_is_exception sub) eqn:B.
      * injection H as <-. exists 0. split; [cbn; lia|]. split; [reflexivity|].
        intros nx' _. now apply findRegisteredDomain_boundary with sub.
      * destruct (findRegisteredDomain sub v' nx) as [f|] eqn:W; [|discriminate].
        injection H as <-.
        destruct (IH sub v' f W) as (n & Hn & Hf & Hst).
        exists (S n). split; [cbn; lia|]. split.
        -- cbn [firstn]. rewrite name_of_cons by discriminate.
           now rewrite <- Hf.
        -- intros nx' E. cbn [firstn] in E.
           destruct nx' as [|w nx']; [discriminate|].
           cbn [firstn] in E. injection E as -> E.
           rewrite (findRegisteredDomain_descend _ _ _ _ _ F B).
           now rewrite (Hst nx' E).
    + injection H as <-. exists 0. split; [cbn; lia|]. split; [reflexivity|].
      intros nx' _. now apply findRegisteredDomain_unmatched.
Qed.

Lemma split_hostname_clean (hostname : string) :
  Forall (fun l => dot_free l /\ nonempty l = true) (split_hostname hostname).
Proof.
  rewrite split_hostname_labels. apply Forall_rev.
  unfold labels_of. apply Forall_forall. intros l Hl.
  apply filter_In in Hl as [Hin Hne]. split; [|exact Hne].
  pose proof (split_keep_empty_dot_free hostname) as F.
  rewrite Forall_forall in F. now apply F.
Qed.

Lemma split_hostname_name_of (labels : dlist) :
  Forall (fun l => dot_free l /\ nonempty l = true) labels ->
  split_hostname (name_of labels) = labels.
Proof.
  intros H. rewrite split_hostname_labels. unfold name_of.
  rewrite labels_of_concat by now apply Forall_rev.
  apply rev_involutive.
Qed.

Lemma split_keep_empty_app (a b : string) :
  split_keep_empty "."%char (a ++ String "."%char b)
  = (split_keep_empty "."%char a ++ split_keep_empty "."%char b)%list.
Proof.
  induction a as [|c a IH]; [reflexivity|].
  cbn [append split_keep_empty].
  destruct (Ascii.eqb c "."%char).
  - now rewrite IH.
  - rewrite IH.
    destruct (split_keep_empty_cons a) as (w & ws & ->). reflexivity.
Qed.

Lemma split_hostname_prepend (x hostname : string) :
  split_hostname (x ++ "." ++ hostname)
  = (split_hostname hostname ++ split_hostname x)%list.
Proof.
  rewrite !split_hostname_labels. unfold labels_of.
  change (x ++ "." ++ hostname) with (x ++ String "."%char hostname).
  rewrite split_keep_empty_app, filter_app. apply rev_app_distr.
Qed.

(** How the matcher comes to a result: the walk gave the name of the first
    [S n] labels; either it holds a dot and is returned, or it is the
    top-level label alone and the first two labels are returned instead. *)
Lemma result_cases (hostname : string) (tree : tldnode) (drop_unknown : Z)
  (r : string) :
  getRegisteredDomainDrop hostname tree drop_unknown = Some r ->
  exists v nx r' n,
    split_hostname hostname = v :: nx
    /\ findRegisteredDomain tree v nx = Some r'
    /\ n <= List.length nx
    /\ r' = name_of (v :: firstn n nx)
    /\ (forall nx', firstn n nx' = firstn n nx ->
                    findRegisteredDomain tree v nx' = Some r')
    /\ ((1 <= n /\ r = r' /\ strchr r' "." <> None)
        \/ (n = 0 /\ strchr v "." = None /\ drop_unknown = 0%Z
            /\ exists v' nx2, nx = v' :: nx2 /\ r = v' ++ "." ++ v)).
Proof.
  unfold getRegisteredDomainDrop, getRegisteredDomainDropI. intros H.
  pose proof (split_hostname_clean hostname) as Hclean.
  destruct (split_hostname hostname) as [|v nx]; [discriminate|].
  destruct (findRegisteredDomain tree v nx) as [r'|] eqn:W; [|discriminate].
  destruct (walk_prefix nx tree v r' W) as (n & Hn & Hr & Hst).
  exists v, nx, r', n. repeat (split; [assumption || reflexivity|]).
  inversion Hclean as [|? ? [Hv _] _]; subst.
  destruct (strchr (name_of (v :: firstn n nx)) ".") eqn:E.
  - left. injection H as <-. split; [|split; [reflexivity|congruence]].
    destruct n; [|lia]. cbn [firstn] in E. rewrite name_of_single in E.
    unfold dot_free in Hv. congruence.
  - right. destruct n as [|n].
    + split; [reflexivity|]. split; [exact Hv|].
      destruct nx as [|v' nx2]; [discriminate|].
      destruct (Z.eqb_spec drop_unknown 0); [|discriminate].
      injection H as <-. split; [assumption|]. now exists v', nx2.
    + exfalso. destruct nx as [|v' nx2]; [cbn in Hn; lia|].
      cbn [firstn] in E. revert E. apply name_of_has_dot. discriminate.
Qed.

End WalkShape.

Lemma firstn_firstn_same (A : Type) (n : nat) (l : list A) :
  firstn n (firstn n l) = firstn n l.
Proof. rewrite firstn_firstn. now rewrite Nat.min_id. Qed.

Lemma firstn_In (A : Type) (n : nat) (l : list A) (x : A) :
  In x (firstn n l) -> In x l.
Proof.
  intros H. rewrite <- (firstn_skipn n l). apply in_or_app. now left.
Qed.

Lemma find_first (A : Type) (f : A -> bool) (l : list A) (x : A) :
  find f l = Some x ->
  f x = true
  /\ exists before after,
       l = (before ++ x :: after)%list
       /\ forall y, In y before -> f y = false.
Proof.
  induction l as [|a l IH]; [discriminate|]. simpl.
  destruct (f a) eqn:E.
  - intros [= ->]. split; [exact E|]. exists [], l. split; [reflexivity|].
    intros y [].
  - intros H. destruct (IH H) as (Hx & before & after & -> & Hb).
    split; [exact Hx|]. exists (a :: before), after. split; [reflexivity|].
    intros y [<-|Hy]; [exact E|now apply Hb].
Qed.

(** X1.  The node the one-level lookup returns is always a child of the
    parent: the first child carrying the queried label, or, when no child
    carries it, the first child labelled ["*"]. *)
Theorem findTldNode_sound (parent c : tldnode) (label : string) :
  findTldNode parent label = Some c ->
  exists before after,
    subnodes parent = (before ++ c :: after)%list
    /\ ((dom c = label /\ forall b, In b before -> dom b <> label)
        \/ (dom c = "*"
            /\ (forall b, In b before -> dom b <> "*")
            /\ forall n, In n (subnodes parent) -> dom n <> label)).
Proof.
  rewrite findTldNode_find. intros H.
  destruct (find (fun n => String.eqb label (dom n)) (subnodes parent))
    as [x|] eqn:F.
  - injection H as ->.
    destruct (find_first _ _ _ _ F) as (Hc & before & after & E & Hb).
    exists before, after. split; [exact E|]. left.
    apply String.eqb_eq in Hc. split; [now symmetry|].
    intros b Hin Hd. apply Hb in Hin. rewrite Hd, String.eqb_refl in Hin.
    discriminate.
  - destruct (find_first _ _ _ _ H) as (Hc & before & after & E & Hb).
    exists before, after. split; [exact E|]. right.
    apply String.eqb_eq in Hc. split; [now symmetry|]. split.
    + intros b Hin Hd. apply Hb in Hin. unfold ALL in Hin.
      rewrite Hd, String.eqb_refl in Hin. discriminate.
    + intros n Hin Hd. apply (find_none _ _ F) in Hin.
      simpl in Hin. rewrite Hd, String.eqb_refl in Hin. discriminate.
Qed.

Lemma findTldNode_sound_witness :
  exists before after,
    subnodes example_parent
    = (before ++ TldNode "*" NoAttr [] :: after)%list
    /\ ((dom (TldNode "*" NoAttr []) = "other"
         /\ forall b, In b before -> dom b <> "other")
        \/ (dom (TldNode "*" NoAttr []) = "*"
            /\ (forall b, In b before -> dom b <> "*")
            /\ forall n, In n (subnodes example_parent) -> dom n <> "other")).
Proof.
  apply (findTldNode_sound example_parent (TldNode "*" NoAttr []) "other").
  reflexivity.
Defined.

(** X2.  A registered domain that is returned is made of the last [k] labels
    of the host name, joined by dots, for some [k] of at least two: the
    matcher never returns a name that is not a suffix of the host name's
    labels, and returns nothing for a host name of fewer than two labels. *)
Theorem registered_domain_is_label_suffix (hostname : string)
  (tree : tldnode) (drop_unknown : Z) (r : string) :
  getRegisteredDomainDrop hostname tree drop_unknown = Some r ->
  exists k,
    2 <= k <= List.length (split_hostname hostname)
    /\ r = name_of (firstn k (split_hostname hostname)).
Proof.
  intros H.
  destruct (result_cases _ _ _ _ H)
    as (v & nx & r' & n & -> & _ & Hn & Hr & _ & Hcase).
  destruct Hcase as [(Hn1 & -> & _) | (-> & _ & _ & v' & nx2 & -> & ->)].
  - exists (S n). cbn [List.length firstn]. split; [lia|exact Hr].
  - exists 2. cbn [List.length]. split; [lia|reflexivity].
Qed.

Lemma registered_domain_is_label_suffix_witness :
  exists k,
    2 <= k <= List.length (split_hostname "a.b.example.com")
    /\ "example.com" = name_of (firstn k (split_hostname "a.b.example.com")).
Proof.
  apply (registered_domain_is_label_suffix "a.b.example.com" ck_tree 1).
  reflexivity.
Defined.

(** X3.  Labels put in front of a host name do not change its registered
    domain: when [hostname] has one, [x.hostname] has the same, whatever the
    text [x] and in either mode. *)
Theorem registered_domain_of_subdomain (x hostname : string) (tree : tldnode)
  (drop_unknown : Z) (r : string) :
  getRegisteredDomainDrop hostname tree drop_unknown = Some r ->
  getRegisteredDomainDrop (x ++ "." ++ hostname) tree drop_unknown = Some r.
Proof.
  intros H.
  destruct (result_cases _ _ _ _ H)
    as (v & nx & r' & n & Hsplit & _ & Hn & Hr & Hst & Hcase).
  unfold getRegisteredDomainDrop, getRegisteredDomainDropI.
  rewrite split_hostname_prepend, Hsplit. cbn [app].
  rewrite (Hst (nx ++ split_hostname x)%list).
  2:{ rewrite firstn_app.
      replace (n - List.length nx) with 0 by lia.
      cbn [firstn]. apply app_nil_r. }
  destruct Hcase as [(_ & -> & Hdot) | (-> & Hv & -> & v' & nx2 & -> & ->)].
  - now destruct (strchr r' ".").
  - cbn [firstn] in Hr. rewrite name_of_single in Hr. subst r'.
    rewrite Hv. reflexivity.
Qed.

Lemma registered_domain_of_subdomain_witness :
  getRegisteredDomainDrop ("mail.eu" ++ "." ++ "www.example.com") ck_tree 0
  = Some "example.com".
Proof.
  apply (registered_domain_of_subdomain "mail.eu" "www.example.com" ck_tree 0).
  reflexivity.
Defined.

(** X4.  The matcher is idempotent: a registered domain that is returned is
    its own registered domain, in the same mode. *)
Theorem registered_domain_idempotent (hostname : string) (tree : tldnode)
  (drop_unknown : Z) (r : string) :
  getRegisteredDomainDrop hostname tree drop_unknown = Some r ->
  getRegisteredDomainDrop r tree drop_unknown = Some r.
Proof.
  intros H.
  pose proof (split_hostname_clean hostname) as Hclean.
  destruct (result_cases _ _ _ _ H)
    as (v & nx & r' & n & Hsplit & _ & Hn & Hr & Hst & Hcase).
  rewrite Hsplit in Hclean.
  assert (Hfirst : forall k,
             Forall (fun l => dot_free l /\ nonempty l = true)
               (firstn k (v :: nx))).
  { intros k. apply Forall_forall. intros l Hl.
    apply firstn_In in Hl. rewrite Forall_forall in Hclean.
    now apply Hclean. }
  unfold getRegisteredDomainDrop, getRegisteredDomainDropI.
  destruct Hcase as [(_ & -> & Hdot) | (-> & Hv & -> & v' & nx2 & -> & ->)].
  - rewrite Hr at 1.
    change (v :: firstn n nx) with (firstn (S n) (v :: nx)).
    rewrite (split_hostname_name_of _ (Hfirst (S n))).
    cbn [firstn].
    rewrite (Hst (firstn n nx)) by apply firstn_firstn_same.
    now destruct (strchr r' ".").
  - cbn [firstn] in Hr. rewrite name_of_single in Hr. subst r'.
    change (v' ++ "." ++ v) with (name_of [v; v']).
    rewrite (split_hostname_name_of [v; v'] (Hfirst 2)).
    rewrite (Hst [v']) by reflexivity.
    rewrite Hv. reflexivity.
Qed.

Lemma registered_domain_idempotent_witness :
  getRegisteredDomainDrop "example.com" ck_tree 1 = Some "example.com".
Proof.
  apply (registered_domain_idempotent "www.example.com" ck_tree 1).
  reflexivity.
Defined.

Section Rules.

Lemma walk_stops (node : tldnode) (label : string) (next : dlist) :
  stops_at node label -> findRegisteredDomain node label next = Some label.
Proof.
  intros [H | (sub & H & B)].
  - now apply findRegisteredDomain_unmatched.
  - now apply findRegisteredDomain_boundary with sub.
Qed.

(** The walk returns null exactly when every label follows a rule. *)
Lemma walk_none_iff (nx : dlist) :
  forall t v,
    findRegisteredDomain t v nx = None
    <-> exists node, descend t (v :: nx) = Some node.
Proof.
  induction nx as [|v' nx IH]; intros t v;
    cbn [findRegisteredDomain descend];
    destruct (findTldNode t v) as [sub|];
    try (split; [discriminate|intros [? [=]]]);
    destruct (only_child_is_exception sub);
    try (split; [discriminate|intros [? [=]]]).
  - split; [now exists sub|reflexivity].
  - rewrite <- (IH sub v').
    destruct (findRegisteredDomain sub v' nx); split; congruence.
Qed.

(** Below a chain of rules that ends where the walk stops, the walk returns
    the chain's labels and the label it stopped at. *)
Lemma walk_descend (matched : list string) :
  forall t node x more,
    descend t matched = Some node ->
    stops_at node x ->
    match (matched ++ x :: more)%list with
    | [] => False
    | v :: nx =>
        findRegisteredDomain t v nx = Some (name_of (matched ++ [x])%list)
    end.
Proof.
  induction matched as [|m ms IH]; intros t node x more Hd Hs.
  - cbn in Hd. injection Hd as ->. cbn [app]. now apply walk_stops.
  - cbn [descend] in Hd.
    destruct (findTldNode t m) as [sub|] eqn:F; [|discriminate].
    destruct (only_child_is_exception sub) eqn:B; [discriminate|].
    specialize (IH sub node x more Hd Hs).
    cbn [app]. rewrite name_of_cons by (now destruct ms).
    destruct (ms ++ x :: more)%list as [|v' nx']; [contradiction|].
    rewrite (findRegisteredDomain_descend _ _ _ _ _ F B).
    now rewrite IH.
Qed.

End Rules.

(** X5.  With [drop_unknown] set, the matcher gives exactly the answers it
    gives without it for the host names whose top-level label finds a rule
    that is not an exception boundary; for all other host names it gives
    null. *)
Theorem strict_mode_answers (hostname : string) (tree : tldnode)
  (drop_unknown : Z) (r : string) :
  drop_unknown <> 0%Z ->
  (getRegisteredDomainDrop hostname tree drop_unknown = Some r
   <-> getRegisteredDomain hostname tree = Some r
       /\ exists tld rest sub,
            split_hostname hostname = tld :: rest
            /\ findTldNode tree tld = Some sub
            /\ only_child_is_exception sub = false).
Proof.
  intros Hd.
  pose proof (split_hostname_clean hostname) as Hclean.
  split.
  - intros H.
    destruct (result_cases _ _ _ _ H)
      as (v & nx & r' & n & Hsplit & W & _ & _ & _ & Hcase).
    destruct Hcase as [(_ & -> & Hdot) | (_ & _ & E & _)]; [|contradiction].
    rewrite Hsplit in Hclean. inversion Hclean as [|? ? [Hv _] _]; subst.
    split.
    + unfold getRegisteredDomain, getRegisteredDomainDropI.
      rewrite Hsplit, W. now destruct (strchr r' ".").
    + exists v, nx.
      destruct (findTldNode tree v) as [sub|] eqn:F.
      * exists sub. split; [exact Hsplit|]. split; [reflexivity|].
        destruct (only_child_is_exception sub) eqn:B; [|reflexivity].
        rewrite (findRegisteredDomain_boundary _ _ _ _ F B) in W.
        injection W as <-. contradiction.
      * rewrite (findRegisteredDomain_unmatched _ _ _ F) in W.
        injection W as <-. contradiction.
  - intros [H (tld & rest & sub & Hsplit & F & B)].
    unfold getRegisteredDomain in H. fold (getRegisteredDomainDrop hostname tree 0) in H.
    destruct (result_cases _ _ _ _ H)
      as (v & nx & r' & n & Hsplit' & W & _ & Hr & _ & Hcase).
    rewrite Hsplit in Hsplit'. injection Hsplit' as <- <-.
    unfold getRegisteredDomainDrop, getRegisteredDomainDropI.
    rewrite Hsplit, W.
    destruct Hcase as [(_ & -> & Hdot) | (-> & Hv & _ & v' & nx2 & -> & _)].
    + now destruct (strchr r' ".").
    + exfalso. cbn [firstn] in Hr. rewrite name_of_single in Hr. subst r'.
      rewrite (findRegisteredDomain_descend _ _ _ _ _ F B) in W.
      destruct (findRegisteredDomain sub v' nx2) as [f|]; [|discriminate].
      injection W as E. cbn [concatDomLabel] in E.
      rewrite <- E in Hv. revert Hv. apply strchr_append.
Qed.

Lemma strict_mode_answers_witness :
  getRegisteredDomainDrop "www.example.com" ck_tree 1 = Some "example.com"
  <-> getRegisteredDomain "www.example.com" ck_tree = Some "example.com"
      /\ exists tld rest sub,
           split_hostname "www.example.com" = tld :: rest
           /\ findTldNode ck_tree tld = Some sub
           /\ only_child_is_exception sub = false.
Proof.
  apply (strict_mode_answers "www.example.com" ck_tree 1 "example.com").
  discriminate.
Defined.

(** X6.  When the walk stops at the top-level label of a host name of two
    or more labels (no rule for it, or a rule that is an exception
    boundary), the matcher returns the first two labels, [second.top], and
    with [drop_unknown] set it returns null: the fallback does not look at
    the tree below the top level. *)
Theorem unknown_top_level_label (hostname : string) (tree : tldnode)
  (tld sld : string) (rest : dlist) :
  split_hostname hostname = tld :: sld :: rest ->
  stops_at tree tld ->
  getRegisteredDomain hostname tree = Some (sld ++ "." ++ tld)
  /\ forall drop_unknown, drop_unknown <> 0%Z ->
       getRegisteredDomainDrop hostname tree drop_unknown = None.
Proof.
  intros Hsplit Hs.
  pose proof (split_hostname_clean hostname) as Hclean.
  rewrite Hsplit in Hclean. inversion Hclean as [|? ? [Hv _] _]; subst.
  unfold getRegisteredDomain, getRegisteredDomainDrop,
    getRegisteredDomainDropI.
  rewrite Hsplit, (walk_stops _ _ _ Hs), Hv.
  split; [reflexivity|].
  intros d Hd. now destruct (Z.eqb_spec d 0).
Qed.

Lemma unknown_top_level_label_witness :
  getRegisteredDomain "x.y.example.zzz" ck_tree = Some ("example" ++ "." ++ "zzz")
  /\ forall drop_unknown, drop_unknown <> 0%Z ->
       getRegisteredDomainDrop "x.y.example.zzz" ck_tree drop_unknown = None.
Proof.
  apply (unknown_top_level_label "x.y.example.zzz" ck_tree
           "zzz" "example" ["y"; "x"]).
  - reflexivity.
  - left. reflexivity.
Defined.

(** X7.  When the first labels of a host name follow a chain of one or more
    rules and the walk stops at the next label, the registered domain is
    that chain with the next label in front, in either mode: the public
    suffix and one label more. *)
Theorem registered_domain_below_rules (hostname : string) (tree : tldnode)
  (drop_unknown : Z) (matched : list string) (x : string) (more : dlist)
  (node : tldnode) :
  split_hostname hostname = (matched ++ x :: more)%list ->
  matched <> [] ->
  descend tree matched = Some node ->
  stops_at node x ->
  getRegisteredDomainDrop hostname tree drop_unknown
  = Some (name_of (matched ++ [x])%list).
Proof.
  intros Hsplit Hne Hd Hs.
  pose proof (walk_descend matched tree node x more Hd Hs) as W.
  unfold getRegisteredDomainDrop, getRegisteredDomainDropI.
  rewrite Hsplit.
  destruct (matched ++ x :: more)%list as [|v nx]; [contradiction|].
  rewrite W.
  destruct matched as [|m ms]; [contradiction|].
  cbn [app].
  pose proof (name_of_has_dot m (ms ++ [x])%list) as Hdot.
  destruct (strchr (name_of (m :: ms ++ [x])%list) "."); [reflexivity|].
  exfalso. apply Hdot; [now destruct ms|reflexivity].
Qed.

Lemma registered_domain_below_rules_witness :
  getRegisteredDomainDrop "www.example.co.uk" uk_tree 1
  = Some (name_of (["uk"; "co"] ++ ["example"])%list).
Proof.
  apply (registered_domain_below_rules "www.example.co.uk" uk_tree 1
           ["uk"; "co"] "example" ["www"] (TldNode "co" NoAttr [])).
  - reflexivity.
  - discriminate.
  - reflexivity.
  - left. reflexivity.
Defined.

(** X8.  Without [drop_unknown], a host name of two or more labels has no
    registered domain exactly when every one of its labels follows a rule,
    that is, when the host name is itself a public suffix. *)
Theorem no_registered_domain_iff_public_suffix (hostname : string)
  (tree : tldnode) :
  2 <= List.length (split_hostname hostname) ->
  (getRegisteredDomain hostname tree = None
   <-> exists node, descend tree (split_hostname hostname) = Some node).
Proof.
  intros Hlen.
  unfold getRegisteredDomain, getRegisteredDomainDropI.
  destruct (split_hostname hostname) as [|v [|v' nx]];
    [cbn in Hlen; lia|cbn in Hlen; lia|].
  rewrite <- walk_none_iff.
  destruct (findRegisteredDomain tree v (v' :: nx)) as [r|];
    [|split; reflexivity].
  destruct (strchr r "."); cbn; split; discriminate.
Qed.

Lemma no_registered_domain_iff_public_suffix_witness :
  getRegisteredDomain "co.uk" uk_tree = None
  <-> exists node, descend uk_tree (split_hostname "co.uk") = Some node.
Proof.
  apply (no_registered_domain_iff_public_suffix "co.uk" uk_tree).
  cbn. lia.
Defined.


(** * Further properties of the parser *)

Lemma loadTldTree_encode_witness :
  loadTldTree (encode ck_tree) = Parsed (Some ck_tree).
Proof.
  apply (loadTldTree_encode ck_tree).
  - reflexivity.
  - discriminate.
Defined.

Section Fuel.

Variables (s : string) (len : nat).

(** More fuel does not change a run that did not lack fuel. *)
Lemma read_children_fuel (rd1 rd2 : nat -> outcome (option tldnode * nat))
  (n : Z) (g1 : nat) :
  (forall q, rd1 q <> NoFuel -> rd2 q = rd1 q) ->
  forall g2 i p,
    g1 <= g2 ->
    read_children rd1 g1 i n p <> NoFuel ->
    read_children rd2 g2 i n p = read_children rd1 g1 i n p.
Proof.
  intros Hrd. induction g1 as [|g1 IH]; intros g2 i p Hle Hnf.
  - destruct g2; cbn [read_children] in *;
      (destruct (Z.ltb i n); [|reflexivity]);
      (destruct (rd1 (p + 1)) as [[x q]| |] eqn:E;
       [contradiction
       |rewrite (Hrd (p + 1)) by (rewrite E; discriminate); now rewrite E
       |contradiction]).
  - destruct g2 as [|g2]; [lia|]. cbn [read_children] in *.
    destruct (Z.ltb i n); [|reflexivity].
    destruct (rd1 (p + 1)) as [[x q]| |] eqn:E.
    + rewrite (Hrd (p + 1)) by (rewrite E; discriminate). rewrite E.
      rewrite (IH g2 (i + 1)%Z q); [reflexivity|lia|].
      intros C. rewrite C in Hnf. contradiction.
    + rewrite (Hrd (p + 1)) by (rewrite E; discriminate). now rewrite E.
    + contradiction.
Qed.

Lemma readTldString_loop_fuel (f1 : nat) :
  forall f2 start state nd a pos,
    f1 <= f2 ->
    readTldString_loop f1 s len start state nd a pos <> NoFuel ->
    readTldString_loop f2 s len start state nd a pos
    = readTldString_loop f1 s len start state nd a pos.
Proof.
  induction f1 as [|f1 IH]; intros f2 start state nd a pos Hle Hnf.
  - cbn in Hnf. contradiction.
  - destruct f2 as [|f2]; [lia|]. cbn [readTldString_loop] in *.
    destruct (String.get pos s) as [c|]; [|reflexivity].
    assert (Hnext : forall start' state' nd' a',
               (if Nat.ltb (S pos) len
                then readTldString_loop f1 s len start' state' nd' a' (S pos)
                else return_node nd' a' (Some []) (S pos)) <> NoFuel ->
               (if Nat.ltb (S pos) len
                then readTldString_loop f2 s len start' state' nd' a' (S pos)
                else return_node nd' a' (Some []) (S pos))
               = (if Nat.ltb (S pos) len
                  then readTldString_loop f1 s len start' state' nd' a' (S pos)
                  else return_node nd' a' (Some []) (S pos))).
    { intros start' state' nd' a' H. destruct (Nat.ltb (S pos) len).
      - apply IH; [lia|exact H].
      - reflexivity. }
    destruct state.
    + destruct (is_structural c).
      * destruct (Ascii.eqb c "("%char); [now apply Hnext|reflexivity].
      * destruct (Ascii.eqb c "!"%char); now apply Hnext.
    + destruct (Ascii.eqb c ":"%char); [|now apply Hnext].
      destruct (atoi _) as [v|]; [|reflexivity].
      match goal with
      | |- context [read_children ?rd1 f1 ?i ?n ?p] =>
          rewrite (read_children_fuel rd1
                     (fun q => readTldString_loop f2 s len q GeneralRead
                                 None NoAttr q) n f1)
      end.
      * reflexivity.
      * intros q Hq. apply IH; [lia|exact Hq].
      * lia.
      * intros C. rewrite C in Hnf. contradiction.
Qed.

End Fuel.

(** X10.  The parser comes to an end on every input: a call that starts at
    [pos] needs no more steps than the array has bytes from [pos] on, so with
    that much fuel or more the run never lacks fuel and its result is the
    same whatever the fuel; a call that returns has read the array at [pos]
    and returns a cursor that is not before [pos]. *)
Theorem readTldString_progress (s : string) (len pos fuel : nat) :
  1 <= fuel ->
  String.length s + 1 <= fuel + pos ->
  readTldString fuel s len pos <> NoFuel
  /\ (forall fuel', fuel <= fuel' ->
        readTldString fuel' s len pos = readTldString fuel s len pos)
  /\ forall t p', readTldString fuel s len pos = Parsed (t, p') ->
                  pos <= p' /\ pos < String.length s.
Proof.
  intros H1 Hf. unfold readTldString.
  destruct (readTldString_loop_total s len fuel pos GeneralRead None NoAttr
              pos H1 Hf) as [[Hnf Hle] Hlt].
  split; [exact Hnf|]. split.
  - intros fuel' Hge. now apply readTldString_loop_fuel.
  - intros t p' E. split; [now apply (Hle t)|now apply (Hlt t p')].
Qed.

Lemma readTldString_progress_witness :
  readTldString 9 "a(2:b,c)" 8 0 <> NoFuel
  /\ (forall fuel', 9 <= fuel' ->
        readTldString fuel' "a(2:b,c)" 8 0 = readTldString 9 "a(2:b,c)" 8 0)
  /\ forall t p', readTldString 9 "a(2:b,c)" 8 0 = Parsed (t, p') ->
                  0 <= p' /\ 0 < String.length "a(2:b,c)".
Proof.
  apply (readTldString_progress "a(2:b,c)" 8 0 9).
  - lia.
  - simpl. lia.
Defined.


Section CleanLabels.

Lemma substring_chars (p : ascii -> bool) (s : string) :
  forall a n,
    (forall i c, a <= i < a + n -> String.get i s = Some c -> p c = true) ->
    all_chars p (substring a n s) = true.
Proof.
  induction s as [|x s IH]; intros a n H.
  - destruct a, n; reflexivity.
  - destruct a as [|a].
    + destruct n as [|n]; [reflexivity|].
      cbn [substring all_chars].
      rewrite (H 0 x) by (simpl; (lia || reflexivity)).
      apply IH. intros i c Hi G. apply (H (S i) c); [lia|exact G].
    + cbn [substring]. apply IH.
      intros i c Hi G. apply (H (S i) c); [lia|exact G].
Qed.

Lemma c_string_chars (p : ascii -> bool) (x : string) :
  all_chars p x = true ->
  all_chars (fun c => p c && negb (Ascii.eqb c NUL)) (c_string x) = true.
Proof.
  induction x as [|c x IH]; [reflexivity|].
  cbn [all_chars c_string]. intros H.
  apply andb_true_iff in H as [Hc Hx].
  destruct (Ascii.eqb c NUL) eqn:E; [reflexivity|].
  cbn [all_chars]. now rewrite Hc, E, IH.
Qed.

Lemma stored_label_clean (s : string) (start lenc pos : nat) :
  lenc <= pos - start ->
  (forall i c, start <= i < pos -> String.get i s = Some c ->
               is_structural c = false) ->
  all_chars clean_char (c_string (substring start lenc s)) = true.
Proof.
  intros Hl H.
  apply (c_string_chars (fun c => negb (is_structural c))).
  apply substring_chars. intros i c Hi G.
  apply negb_true_iff. apply (H i c); [lia|exact G].
Qed.

Lemma return_node_clean (nd : option string) (a : attr_ptr)
  (children : option (list tldnode)) (pos p' : nat) (t : tldnode) :
  (forall d, nd = Some d -> all_chars clean_char d = true) ->
  (forall cs, children = Some cs ->
              forallb (all_labels (all_chars clean_char)) cs = true) ->
  return_node nd a children pos = Parsed (Some t, p') ->
  all_labels (all_chars clean_char) t = true.
Proof.
  intros Hd Hc. unfold return_node.
  destruct nd as [d|]; [|intros [=]].
  destruct children as [cs|]; [|intros [=]].
  intros [= <- _]. cbn [all_labels].
  now rewrite (Hd d eq_refl), (Hc cs eq_refl).
Qed.

Lemma read_children_clean (rd : nat -> outcome (option tldnode * nat))
  (n : Z) (fuel : nat) :
  (forall q t p, rd q = Parsed (Some t, p) ->
                 all_labels (all_chars clean_char) t = true) ->
  forall i pos cs p',
    read_children rd fuel i n pos = Parsed (Some cs, p') ->
    forallb (all_labels (all_chars clean_char)) cs = true.
Proof.
  intros Hrd. induction fuel as [|fuel IH]; intros i pos cs p';
    cbn [read_children]; destruct (Z.ltb i n);
    try (intros [= <- _]; reflexivity);
    destruct (rd (pos + 1)) as [[x q]| |] eqn:E; try discriminate.
  destruct (read_children rd fuel (i + 1) n q) as [[xs q']| |] eqn:R;
    try discriminate.
  intros [= Hc _].
  destruct x as [x|]; [|discriminate].
  destruct xs as [xs|]; [|discriminate].
  cbn in Hc. injection Hc as <-. cbn [forallb].
  now rewrite (Hrd _ _ _ E), (IH _ _ _ _ R).
Qed.

Lemma readTldString_loop_clean (s : string) (len : nat) (fuel : nat) :
  forall start state nd a pos t p',
    (state = GeneralRead ->
     forall i c, start <= i < pos -> String.get i s = Some c ->
                 is_structural c = false) ->
    (forall d, nd = Some d -> all_chars clean_char d = true) ->
    readTldString_loop fuel s len start state nd a pos = Parsed (Some t, p') ->
    all_labels (all_chars clean_char) t = true.
Proof.
  induction fuel as [|fuel IH]; intros start state nd a pos t p' Hrange Hnd;
    [discriminate|].
  cbn [readTldString_loop].
  destruct (String.get pos s) as [c|] eqn:G; [|discriminate].
  assert (Hnext : forall start' state' nd' a',
             (state' = GeneralRead ->
              forall i c', start' <= i < S pos -> String.get i s = Some c' ->
                           is_structural c' = false) ->
             (forall d, nd' = Some d -> all_chars clean_char d = true) ->
             (if Nat.ltb (S pos) len
              then readTldString_loop fuel s len start' state' nd' a' (S pos)
              else return_node nd' a' (Some []) (S pos)) = Parsed (Some t, p') ->
             all_labels (all_chars clean_char) t = true).
  { intros start' state' nd' a' Hr Hd. destruct (Nat.ltb (S pos) len).
    - now apply IH.
    - apply return_node_clean; [exact Hd|]. now intros cs [= <-]. }
  destruct state.
  - specialize (Hrange eq_refl).
    destruct (is_structural c) eqn:Hs.
    + assert (Hd : forall d,
                 Some (c_string
                         (substring start
                            match a with
                            | NoAttr => pos - start
                            | THIS => pos - start - 1
                            end s)) = Some d ->
                 all_chars clean_char d = true).
      { intros d [= <-]. apply stored_label_clean with pos; [|exact Hrange].
        destruct a; lia. }
      destruct (Ascii.eqb c "("%char).
      * apply Hnext; [discriminate|exact Hd].
      * apply return_node_clean; [exact Hd|]. now intros cs [= <-].
    + assert (Hr : forall i c', start <= i < S pos ->
                                String.get i s = Some c' ->
                                is_structural c' = false).
      { intros i c' Hi Gi. destruct (Nat.eq_dec i pos) as [->|Hne].
        - congruence.
        - apply (Hrange i c'); [lia|exact Gi]. }
      destruct (Ascii.eqb c "!"%char); apply Hnext; auto.
  - destruct (Ascii.eqb c ":"%char); [|apply Hnext; [discriminate|exact Hnd]].
    destruct (atoi _) as [v|]; [|discriminate].
    destruct (read_children _ _ _ _ _) as [[cs q]| |] eqn:R; try discriminate.
    apply return_node_clean; [exact Hnd|].
    intros cs' ->. revert R. apply read_children_clean.
    intros q0 t0 p0. apply IH; [|discriminate].
    intros _ i c' Hi. lia.
Qed.

End CleanLabels.

(** X11.  Whatever the table holds, no label of a tree that the parser
    returns contains one of the structural characters [','], ['('], [')'] or
    a NUL: the parser never lets the table's syntax into the labels that the
    lookup compares. *)
Theorem parsed_labels_are_clean (tldString : string) (tree : tldnode) :
  loadTldTree tldString = Parsed (Some tree) ->
  all_labels (all_chars clean_char) tree = true.
Proof.
  unfold loadTldTree, readTldString.
  destruct (readTldString_loop _ _ _ _ _ _ _ _) as [[root p]| |] eqn:E;
    try discriminate.
  intros [= ->]. revert E. apply readTldString_loop_clean.
  - intros _ i c Hi. lia.
  - discriminate.
Qed.

Lemma parsed_labels_are_clean_witness :
  all_labels (all_chars clean_char)
    (TldNode "a" NoAttr [TldNode "b:1!" THIS []; TldNode "c d" NoAttr []])
  = true.
Proof.
  apply (parsed_labels_are_clean "a(2:b:1!!,c d)").
  reflexivity.
Defined.


(** * Printing *)

Example print_ck_tree :
  printTldTree "(null)" ck_tree ""
  = Printed ("root:" ++ newline
             ++ "  ck:" ++ newline
             ++ "    *:" ++ newline
             ++ "      www: !" ++ newline
             ++ "  com: (null)" ++ newline).
Proof. reflexivity. Qed.

Section PrintBounds.

Variable null_text : string.

Lemma print_children_printed (pr : tldnode -> string -> print_outcome)
  (spacer : string) (kids : list tldnode) :
  Forall (fun k => forall sp,
            (exists out, pr k sp = Printed out) <-> dest_fits k (strlen sp))
    kids ->
  ((exists out, print_children pr spacer kids = Printed out)
   <-> kids = []
       \/ (2 + strlen spacer + 1 <= DEST_SIZE
           /\ Forall (fun k => dest_fits k (strlen spacer + 2)) kids)).
Proof.
  induction kids as [|k kids IH]; intros H.
  - split; [now left|]. intros _. now exists EmptyString.
  - inversion H as [|? ? Hk Hrest]; subst. specialize (IH Hrest).
    cbn [print_children].
    destruct (Nat.ltb_spec DEST_SIZE (2 + strlen spacer + 1)) as [Hov|Hfit].
    + split; [intros [out [=]]|]. intros [[=]|[Hle _]]. lia.
    + assert (Hlen : strlen ("  " ++ spacer) = strlen spacer + 2)
        by (unfold strlen; simpl; lia).
      specialize (Hk ("  " ++ spacer)). rewrite Hlen in Hk.
      destruct (pr k ("  " ++ spacer)) as [out|].
      * assert (Fk : dest_fits k (strlen spacer + 2))
          by (apply Hk; now exists out).
        destruct (print_children pr spacer kids) as [out'|].
        -- split; [|intros _; now eexists].
           intros _. right. split; [exact Hfit|]. constructor; [exact Fk|].
           destruct (proj1 IH) as [->|[_ F]]; [now eexists|constructor|exact F].
        -- split; [intros [o [=]]|].
           intros [[=]|[_ F]]. inversion F; subst.
           destruct (proj2 IH) as [o [=]]. right. now split.
      * split; [intros [o [=]]|].
        intros [[=]|[_ F]]. inversion F as [|? ? Fk _]; subst.
        destruct (proj2 Hk Fk) as [o [=]].
Qed.

Lemma printTldTreeI_printed (t : tldnode) :
  forall spacer,
    (exists out, printTldTreeI null_text t spacer = Printed out)
    <-> dest_fits t (strlen spacer).
Proof.
  induction t as [d a kids IH] using tldnode_ind. intros spacer.
  destruct kids as [|k ks].
  - cbn [printTldTreeI]. split; [intros _; now left|intros _; now eexists].
  - pose proof (print_children_printed (printTldTreeI null_text) spacer
                  (k :: ks) IH) as Hc.
    cbn [printTldTreeI].
    assert (Hp : (exists out,
                    match print_children (printTldTreeI null_text) spacer
                            (k :: ks) with
                    | Printed out0 =>
                        Printed (spacer ++ d ++ ":" ++ newline ++ out0)
                    | DestOverflow => DestOverflow
                    end = Printed out)
                 <-> exists out,
                       print_children (printTldTreeI null_text) spacer
                         (k :: ks) = Printed out).
    { destruct (print_children _ _ _) as [o|].
      - split; intros _; now eexists.
      - split; intros [o [=]]. }
    rewrite Hp, Hc. clear Hp Hc IH.
    unfold dest_fits. cbn [block_depth].
    remember (list_max (map block_depth (k :: ks))) as M eqn:EM.
    unfold DEST_SIZE. split.
    + intros [[=]|[Hle F]]. right.
      assert (HM : M <= (97 - strlen spacer) / 2).
      { subst M. apply list_max_le. apply Forall_map.
        eapply Forall_impl; [|exact F]. cbv beta.
        intros x [-> | Hx]; [lia|].
        apply Nat.div_le_lower_bound; lia. }
      pose proof (Nat.Div0.mul_div_le (97 - strlen spacer) 2). lia.
    + intros [[=]|Hle]. right. split; [lia|].
      assert (HM : Forall (fun x => x <= M) (map block_depth (k :: ks)))
        by (apply list_max_le; subst M; reflexivity).
      apply Forall_map in HM.
      eapply Forall_impl; [|exact HM]. cbv beta.
      intros x Hx. right. lia.
Qed.

End PrintBounds.

(** X12.  Printing a tree overflows the 100-byte buffer in which
    [printTldTreeI] builds the indentation exactly when the tree has child
    blocks and the spacer's length plus two blanks for each level of nested
    blocks, with the terminator, exceeds 100; otherwise the whole tree is
    printed. *)
Theorem printTldTree_overflow_iff (null_text : string) (t : tldnode)
  (spacer : string) :
  printTldTree null_text t spacer = DestOverflow
  <-> 1 <= block_depth t
      /\ DEST_SIZE < strlen spacer + 2 * block_depth t + 1.
Proof.
  unfold printTldTree.
  pose proof (printTldTreeI_printed null_text t spacer) as H.
  unfold dest_fits in H.
  destruct (printTldTreeI null_text t spacer) as [out|].
  - split; [discriminate|]. intros [H1 H2].
    destruct (proj1 H) as [E|E]; [now exists out|lia|lia].
  - split; [|reflexivity]. intros _.
    destruct (Nat.eq_dec (block_depth t) 0) as [E|E].
    + destruct (proj2 H) as [o [=]]. now left.
    + split; [lia|].
      destruct (Nat.le_gt_cases (strlen spacer + 2 * block_depth t + 1)
                  DEST_SIZE) as [Hle|Hgt]; [|exact Hgt].
      destruct (proj2 H) as [o [=]]. now right.
Qed.

Lemma printTldTree_overflow_iff_witness :
  printTldTree "(null)" (chain 50) "" = DestOverflow
  /\ printTldTree "(null)" (chain 49) "" <> DestOverflow.
Proof.
  split.
  - apply (printTldTree_overflow_iff "(null)" (chain 50) "").
    vm_compute. split; lia.
  - intros H.
    apply (printTldTree_overflow_iff "(null)" (chain 49) "") in H.
    vm_compute in H. lia.
Defined.

(** * A marker inside a label *)

(** X13.  The parser does not ask that the ['!'] ends the label: when a
    ['!'] stands anywhere in the text of a node without children, the node
    is an exception node and its stored label is that text without its last
    character, whichever character that is. *)
Theorem marker_anywhere_drops_last_char (s : string) (len pos fuel : nat)
  (body : string) (x c : ascii) (tail : string) :
  all_chars clean_char (body ++ String x EmptyString) = true ->
  mark (body ++ String x EmptyString) NoAttr = THIS ->
  c = ","%char \/ c = ")"%char ->
  suffix_at s pos ((body ++ String x EmptyString) ++ String c tail) ->
  pos + String.length body + 1 < len ->
  String.length s + 1 <= fuel + pos ->
  readTldString fuel s len pos
  = Parsed (Some (TldNode body THIS []), pos + String.length body + 1).
Proof.
  intros Hclean Hmark Hc Hs Hl Hf.
  pose proof (suffix_at_length _ _ _ Hs) as Hlen.
  rewrite !append_length in Hlen. cbn [String.length] in Hlen.
  assert (Hcl : String.length (body ++ String x "") = String.length body + 1)
    by (rewrite append_length; simpl; lia).
  destruct (fuel_split fuel (String.length (body ++ String x "")))
    as [f ->]; [lia|].
  unfold readTldString.
  rewrite (scan_general s len (body ++ String x "") pos None NoAttr pos
             (String c tail) (S f) Hs).
  2:{ eapply all_chars_weaken; [|exact Hclean].
      intros ch H. unfold clean_char in H.
      now apply andb_true_iff in H as [H _]. }
  2:{ lia. }
  rewrite Hmark.
  pose proof (suffix_at_skip _ _ _ _ Hs) as Hs'.
  cbn [readTldString_loop].
  rewrite (suffix_at_get _ _ _ _ Hs').
  assert (Hst : is_structural c = true) by (destruct Hc as [-> | ->]; reflexivity).
  assert (Hnp : Ascii.eqb c "("%char = false)
    by (destruct Hc as [-> | ->]; reflexivity).
  rewrite Hst, Hnp, Hcl.
  replace (pos + (String.length body + 1) - pos - 1)
    with (String.length body) by lia.
  rewrite !append_assoc in Hs.
  rewrite (suffix_at_substring _ _ _ _ Hs).
  rewrite all_chars_append in Hclean.
  apply andb_true_iff in Hclean as [Hb _].
  rewrite c_string_no_nul.
  - unfold return_node. do 2 f_equal. lia.
  - eapply all_chars_weaken; [|exact Hb].
    intros ch H. unfold clean_char in H.
    now apply andb_true_iff in H as [_ H].
Qed.

Lemma marker_anywhere_drops_last_char_witness :
  readTldString 12 ("r(2:a!b,c)" ++ String NUL "") 10 4
  = Parsed (Some (TldNode "a!" THIS []), 4 + String.length "a!" + 1).
Proof.
  apply (marker_anywhere_drops_last_char
           ("r(2:a!b,c)" ++ String NUL "") 10 4 12 "a!" "b" ","
           ("c)" ++ String NUL "")).
  - reflexivity.
  - reflexivity.
  - now left.
  - exists "r(2:". split; reflexivity.
  - simpl. lia.
  - simpl. lia.
Defined.
